(** * Command-T matcher: the ranking pipeline of [matcher.c]

    A shallow embedding of [ruby/command-t/matcher.c] (the build with
    [HAVE_PTHREAD_H]) and the properties of its result list.

    Conventions of the embedding.
    - C [long] and [int] values are [Z]; the narrowing of a [long] to the
      [int] fields of [thread_args_t] is written out ([int_of_long]).
    - A Ruby string is a [string] of bytes; [RSTRING_LEN] is its length and
      the byte after the last one is the NUL that Ruby keeps there.
    - [match_t.score] is a C [double]; scores are modelled as rationals
      [Q], ordered as finite doubles are (no NaN).
    - [rb_raise] is the result [Raise e]; behaviour that C leaves undefined
      (reading a slot nobody wrote, writing outside the buffer) and a loop
      that never exits are results of their own.
    - Whether [malloc] returns NULL and what [pthread_create] and
      [pthread_join] return is not decided by the program: an
      [environment] says it, and the model raises NoMemError and
      SystemCallError where the code does. Sizes are those of the LP64
      build. *)

From Stdlib Require Import ZArith QArith Lia Lqa Ascii String.
From stdpp Require Import base tactics list sorting.

Local Open Scope Z_scope.
#[local] Set Warnings "-register-all".

(** ** Ruby values *)

Inductive VALUE : Type :=
| Qnil
| Qtrue
| Qfalse
| Integer (n : Z)
| RString (s : string)
| RHash (h : list (string * VALUE))
| Scanner (paths : list string).

Definition NIL_P (v : VALUE) : bool :=
  match v with Qnil => true | _ => false end.

(** [v == Qtrue] on [VALUE]s. *)
Definition is_Qtrue (v : VALUE) : bool :=
  match v with Qtrue => true | _ => false end.

Inductive rb_exception : Type :=
| rb_eArgError (msg : string)
| rb_eTypeError
| rb_eRangeError
| rb_eNoMethodError
| rb_eNoMemError
| rb_eSystemCallError.

(** The outcome of a C function of the extension. *)
Inductive result (A : Type) : Type :=
| Ok (x : A)
| Raise (e : rb_exception)
| Undefined            (* C undefined behaviour was reached *)
| Hang.                (* a loop that does not exit *)

Arguments Ok {A} x.
Arguments Raise {A} e.
Arguments Undefined {A}.
Arguments Hang {A}.

(** ** Strings as bytes *)

Definition byte_of (c : ascii) : Z := Z.of_N (N_of_ascii c).

Definition RSTRING_LEN (s : string) : Z := Z.of_nat (String.length s).

(** [strncmp] of the C library: compares at most [n] bytes as
    [unsigned char], and stops after a NUL byte that both strings have at
    the same place. The standard fixes the sign of the result only; the
    difference of the two bytes is what the usual implementations return.
    An exhausted [string] stands for the terminating NUL. *)
Fixpoint strncmp_bytes (s1 s2 : string) (n : nat) : Z :=
  match n with
  | O => 0
  | S n' =>
      match s1, s2 with
      | String c1 r1, String c2 r2 =>
          if byte_of c1 =? byte_of c2
          then if byte_of c1 =? 0 then 0 else strncmp_bytes r1 r2 n'
          else byte_of c1 - byte_of c2
      | String c1 _, EmptyString => byte_of c1 - 0
      | EmptyString, String c2 _ => 0 - byte_of c2
      | EmptyString, EmptyString => 0
      end
  end.

Definition strncmp (s1 s2 : string) (n : Z) : Z :=
  strncmp_bytes s1 s2 (Z.to_nat n).

(** ** Scored matches *)

(** [match_t] of [match.h]: the candidate and its score. *)
Record match_t : Type := { path : string; score : Q }.

Definition Qltb (x y : Q) : bool :=
  match Qcompare x y with Lt => true | _ => false end.

(** comparison function for use with qsort *)
Definition cmp_alpha (a b : match_t) : Z :=
  let a_str := path a in
  let b_str := path b in
  let a_len := RSTRING_LEN a_str in
  let b_len := RSTRING_LEN b_str in
  if a_len >? b_len then
    let order := strncmp a_str b_str b_len in
    if order =? 0 then 1            (* shorter string (b) wins *)
    else order
  else if a_len <? b_len then
    let order := strncmp a_str b_str a_len in
    if order =? 0 then -1           (* shorter string (a) wins *)
    else order
  else strncmp a_str b_str a_len.

(** comparison function for use with qsort *)
Definition cmp_score (a b : match_t) : Z :=
  if Qltb (score b) (score a) then -1      (* a scores higher, a sooner *)
  else if Qltb (score a) (score b) then 1  (* b scores higher, a later *)
  else cmp_alpha a b.

(** The comparison of [cmp_alpha] by recursion on the two strings: the
    first unequal bytes decide; a NUL byte on both sides ends the
    comparison of bytes and leaves the lengths to decide. *)
Definition length_order (s t : string) : Z :=
  if RSTRING_LEN s >? RSTRING_LEN t then 1
  else if RSTRING_LEN s <? RSTRING_LEN t then -1 else 0.

Fixpoint alpha_rec (s t : string) : Z :=
  match s, t with
  | EmptyString, EmptyString => 0
  | EmptyString, String _ _ => -1
  | String _ _, EmptyString => 1
  | String c s', String d t' =>
      if byte_of c =? byte_of d then
        if byte_of c =? 0 then length_order s' t' else alpha_rec s' t'
      else byte_of c - byte_of d
  end.

(** The alphabetic rule in the words of the specification: byte-wise up
    to the shorter length, the first unequal byte decides, and a string
    that is a prefix of the other sorts first. *)
Fixpoint bytewise_compare (s t : string) : comparison :=
  match s, t with
  | EmptyString, EmptyString => Eq
  | EmptyString, String _ _ => Lt
  | String _ _, EmptyString => Gt
  | String c s', String d t' =>
      match byte_of c ?= byte_of d with
      | Eq => bytewise_compare s' t'
      | o => o
      end
  end.

(** No byte of the string is NUL. *)
Fixpoint nul_free (s : string) : bool :=
  match s with
  | EmptyString => true
  | String c r => negb (byte_of c =? 0) && nul_free r
  end.

(** The bytes before the first NUL: the string as C reads it. *)
Fixpoint c_str (s : string) : string :=
  match s with
  | EmptyString => EmptyString
  | String c r => if byte_of c =? 0 then EmptyString else String c (c_str r)
  end.

(** What [qsort] asks of its comparison function: opposite signs for
    swapped arguments, and a transitive "not after". *)
Definition consistent (cmp : match_t -> match_t -> Z) : Prop :=
  (forall a b, Z.sgn (cmp b a) = - Z.sgn (cmp a b)) /\
  (forall a b c, cmp a b <= 0 -> cmp b c <= 0 -> cmp a c <= 0).

(** [a] may stand before [b] in an array sorted with [cmp]. *)
Definition before (cmp : match_t -> match_t -> Z) (a b : match_t) : Prop :=
  cmp a b <= 0.

(** ** Machine integers *)

Definition LONG_MAX : Z := 2 ^ 63 - 1.
Definition LONG_MIN : Z := - 2 ^ 63.
Definition INT_MAX : Z := 2 ^ 31 - 1.

(** Conversion of a [long] to an [int] field (two's complement wrap). *)
Definition int_of_long (z : Z) : Z := (z + 2 ^ 31) mod 2 ^ 32 - 2 ^ 31.

(** [NUM2LONG] of the Ruby C API on the values of this model. *)
Definition NUM2LONG (v : VALUE) : result Z :=
  match v with
  | Integer n =>
      if (LONG_MIN <=? n) && (n <=? LONG_MAX) then Ok n else Raise rb_eRangeError
  | _ => Raise rb_eTypeError
  end.

(** [StringValue]: a String is itself, anything else is refused. *)
Definition StringValue (v : VALUE) : result string :=
  match v with
  | RString s => Ok s
  | _ => Raise rb_eTypeError
  end.

(** [rb_scan_args(argc, argv, "11", &x, &options)]: one mandatory and one
    optional argument; a missing optional one is [Qnil]. *)
Definition rb_scan_args_11 (argv : list VALUE) : result (VALUE * VALUE) :=
  match argv with
  | [x] => Ok (x, Qnil)
  | [x; options] => Ok (x, options)
  | _ => Raise (rb_eArgError "wrong number of arguments")
  end.

Fixpoint rb_hash_aref (h : list (string * VALUE)) (key : string) : VALUE :=
  match h with
  | [] => Qnil
  | (k, v) :: h' => if String.eqb k key then v else rb_hash_aref h' key
  end.

(** Modelled from the spec: [CommandT_option_from_hash] of [ext.c], which
    is not among the sources. The options are a property bag read by
    name, an absent option (or absent bag) reads as nil. *)
Definition CommandT_option_from_hash (option : string) (hash : VALUE)
  : result VALUE :=
  match hash with
  | Qnil => Ok Qnil
  | RHash h => Ok (rb_hash_aref h option)
  | _ => Raise rb_eNoMethodError
  end.

(** Instance variables of the matcher object, latest binding first. *)
Definition ivars : Type := list (string * VALUE).

Definition rb_iv_set (self : ivars) (name : string) (v : VALUE) : ivars :=
  (name, v) :: self.

Definition rb_iv_get (self : ivars) (name : string) : VALUE :=
  rb_hash_aref self name.

(** [String#downcase] on ASCII letters, [String#delete(" ")]. *)
Definition downcase_byte (c : ascii) : ascii :=
  let n := N_of_ascii c in
  if ((65 <=? n) && (n <=? 90))%N then ascii_of_N (n + 32) else c.

Fixpoint downcase (s : string) : string :=
  match s with
  | EmptyString => EmptyString
  | String c r => String (downcase_byte c) (downcase r)
  end.

Fixpoint delete_spaces (s : string) : string :=
  match s with
  | EmptyString => EmptyString
  | String c r =>
      if Ascii.eqb c " " then delete_spaces r else String c (delete_spaces r)
  end.

(** [RSTRING_LEN(abbrev) == 1 && RSTRING_PTR(abbrev)[0] == '.'] *)
Definition is_single_dot (abbrev : string) : bool :=
  (RSTRING_LEN abbrev =? 1) &&
  match abbrev with String c _ => Ascii.eqb c "." | EmptyString => false end.

(** ** What a call does, as a trace *)

Inductive event : Type :=
| Ev_paths                                  (* scanner.paths was called *)
| Ev_malloc (nmemb : Z)
| Ev_pthread_create (i : Z)
| Ev_calculate_match (thread_index i : Z)   (* slot [i] scored and written *)
| Ev_pthread_join (i : Z)
| Ev_qsort
| Ev_free.

(** A computation that leaves a trace and ends in a [result]. *)
Definition M (A : Type) : Type := list event * result A.

Definition ret {A} (x : A) : M A := ([], Ok x).
Definition emit (e : event) : M unit := ([e], Ok tt).
Definition lift {A} (r : result A) : M A := ([], r).
Definition rb_raise {A} (e : rb_exception) : M A := ([], Raise e).

Definition rbind {A B} (r : result A) (f : A -> result B) : result B :=
  match r with
  | Ok x => f x
  | Raise e => Raise e
  | Undefined => Undefined
  | Hang => Hang
  end.

Definition bind {A B} (m : M A) (f : A -> M B) : M B :=
  match m with
  | (t, Ok x) => let (t', r) := f x in (t ++ t', r)
  | (t, Raise e) => (t, Raise e)
  | (t, Undefined) => (t, Undefined)
  | (t, Hang) => (t, Hang)
  end.

Notation "'let*' x := m 'in' k" := (bind m (fun x => k))
  (at level 10, x pattern, m at level 100, k at level 200).
Notation "m ;;; k" := (bind m (fun _ => k))
  (at level 100, k at level 200, right associativity).
Notation "'let+' x := r 'in' k" := (rbind r (fun x => k))
  (at level 10, x pattern, r at level 100, k at level 200).

(** ** The environment of a call *)

(** What the allocator and the thread library answer during one call:
    whether the [site]-th [malloc] of the call (0 is [matches], 1 is
    [threads], 2 is [thread_args]) returns NULL, and the values that
    [pthread_create] and [pthread_join] return for worker [i]. *)
Record environment : Type := {
  malloc_null : nat -> bool;
  pthread_create_err : Z -> Z;
  pthread_join_err : Z -> Z
}.

(** An environment in which nothing fails. *)
Definition quiet : environment :=
  {| malloc_null := fun _ => false;
     pthread_create_err := fun _ => 0;
     pthread_join_err := fun _ => 0 |}.

Definition SIZE_MAX : Z := 2 ^ 64 - 1.
Definition PTRDIFF_MAX : Z := 2 ^ 63 - 1.

(** [sizeof(match_t)] (a [VALUE] and a [double]), [sizeof(pthread_t)] and
    [sizeof(thread_args_t)] (three [int], padding, a pointer, a [long] and
    five [VALUE]). *)
Definition sizeof_match_t : Z := 16.
Definition sizeof_pthread_t : Z := 8.
Definition sizeof_thread_args_t : Z := 72.

(** [malloc(nmemb * size)] returns NULL: the product is taken in [size_t]
    and wraps, no allocator grants more than [PTRDIFF_MAX] bytes, and
    below that the environment decides. *)
Definition malloc_fails (env : environment) (site : nat) (size nmemb : Z)
  : bool :=
  (PTRDIFF_MAX <? (size * nmemb) mod (SIZE_MAX + 1)) || malloc_null env site.

(** [p = malloc(nmemb * size); if (!p) rb_raise(rb_eNoMemError, ...)] *)
Definition malloc (env : environment) (site : nat) (size nmemb : Z) : M unit :=
  if malloc_fails env site size nmemb
  then rb_raise rb_eNoMemError
  else emit (Ev_malloc nmemb).

(** [rb_funcall(scanner, rb_intern("paths"), 0)] *)
Definition rb_funcall_paths (scanner : VALUE) : M (list string) :=
  match scanner with
  | Scanner paths => let* _ := emit Ev_paths in ret paths
  | _ => rb_raise rb_eNoMethodError
  end.

(** ** The score buffer and the workers *)

(** The [matches] array: a slot is [None] until somebody writes it. *)
Abbreviation buffer := (list (option match_t)).

(** [thread_args_t]; its [matches] pointer is the shared buffer of the
    state below. *)
Record thread_args_t : Type := {
  thread_count : Z;
  thread_index : Z;
  case_sensitive : bool;
  path_count : Z;
  paths : list string;
  abbrev : string;
  always_show_dot_files : VALUE;
  never_show_dot_files : VALUE;
  recurse : VALUE
}.

(** The shared buffer, the loop variable [i] of every worker's
    [match_thread], and what has been scored so far. *)
Record workers : Type := {
  shared_matches : buffer;
  loop_i : list Z;
  scored : list event
}.

(** All the slots of a buffer, if every one of them was written. *)
Fixpoint read_all (b : buffer) : option (list match_t) :=
  match b with
  | [] => Some []
  | Some m :: b' =>
      match read_all b' with Some ms => Some (m :: ms) | None => None end
  | None :: _ => None
  end.

(** The result loop of lines 233-238:
    [for (i = 0; i < path_count && limit > 0; i++)]. *)
Fixpoint collect (b : buffer) (limit : Z) : result (list string) :=
  match b with
  | [] => Ok []
  | slot :: b' =>
      if limit >? 0 then
        match slot with
        | None => Undefined
        | Some m =>
            if Qltb 0 (score m)
            then let+ rs := collect b' (limit - 1) in Ok (path m :: rs)
            else collect b' limit
        end
      else Ok []
  end.

Definition THREAD_THRESHOLD : Z := 1000.

(** ** Reference instances of what the sources leave open *)

(** A sort that meets the contract of the C library's [qsort]: insertion
    by the comparator, equal elements kept in their order. *)
Fixpoint insert_by (cmp : match_t -> match_t -> Z) (x : match_t)
    (l : list match_t) : list match_t :=
  match l with
  | [] => [x]
  | y :: l' => if cmp x y <=? 0 then x :: l else y :: insert_by cmp x l'
  end.

Fixpoint qsort_insertion (cmp : match_t -> match_t -> Z)
    (l : list match_t) : list match_t :=
  match l with
  | [] => []
  | x :: l' => insert_by cmp x (qsort_insertion cmp l')
  end.

(** [needle] is a subsequence of [haystack]; the haystack is case-folded
    unless [cs]. *)
Fixpoint is_subsequence (cs : bool) (needle haystack : string) : bool :=
  match needle with
  | EmptyString => true
  | String n needle' =>
      match haystack with
      | EmptyString => false
      | String h haystack' =>
          if Ascii.eqb n (if cs then h else downcase_byte h)
          then is_subsequence cs needle' haystack'
          else is_subsequence cs needle haystack'
      end
  end.

Fixpoint has_slash (s : string) : bool :=
  match s with
  | EmptyString => false
  | String c r => Ascii.eqb c "/" || has_slash r
  end.

Fixpoint final_segment (s : string) : string :=
  match s with
  | EmptyString => EmptyString
  | String c r =>
      if has_slash r then final_segment r
      else if Ascii.eqb c "/" then r else s
  end.

Definition starts_with_dot (s : string) : bool :=
  match s with String c _ => Ascii.eqb c "." | EmptyString => false end.

(** Modelled from the spec: the scorer of [match.c] (section 4.1), which
    is not among the sources. 0 when the pattern is not a subsequence of
    the candidate; 0 when the candidate is dot-hidden and suppressed
    (never-show set, or always-show unset and the pattern not starting
    with a dot); a positive value otherwise. The weights are not
    specified: this scorer gives 1 / (1 + length), shorter is better. *)
Definition spec_scorer (candidate pattern : string) (cs : bool)
    (always never recurse : VALUE) : Q :=
  if negb (is_subsequence cs pattern candidate) then 0%Q
  else if starts_with_dot (final_segment candidate) &&
          (is_Qtrue never ||
           (negb (is_Qtrue always) && negb (starts_with_dot pattern)))
  then 0%Q
  else Qmake 1 (Pos.of_succ_nat (String.length candidate)).

(** ** The matcher *)

(** Continue with the value of [r], or leave with what it raised and
    the instance variables as they are. *)
Definition and_then {A B} (self : ivars) (r : result A)
    (k : A -> ivars * result B) : ivars * result B :=
  match r with
  | Ok x => k x
  | Raise e => (self, Raise e)
  | Undefined => (self, Undefined)
  | Hang => (self, Hang)
  end.

(** [CommandTMatcher_initialize]: returns the object's instance variables
    as the call leaves them, and its result. *)
Definition CommandTMatcher_initialize (argv : list VALUE) (self : ivars)
  : ivars * result VALUE :=
  (* process arguments: 1 mandatory, 1 optional *)
  and_then self (rb_scan_args_11 argv) (fun '(scanner, options) =>
  if NIL_P scanner then (self, Raise (rb_eArgError "nil scanner")) else
  let self := rb_iv_set self "@scanner" scanner in
  (* check optional options hash for overrides *)
  and_then self (CommandT_option_from_hash "always_show_dot_files" options)
    (fun always_show_dot_files =>
  and_then self (CommandT_option_from_hash "never_show_dot_files" options)
    (fun never_show_dot_files =>
  let self := rb_iv_set self "@always_show_dot_files" always_show_dot_files in
  let self := rb_iv_set self "@never_show_dot_files" never_show_dot_files in
  (self, Ok Qnil)))).

Section Matcher.

Set Default Proof Using "Type".

(** [qsort] of the C library and the scorer of [match.c]. *)
Variable qsort : (match_t -> match_t -> Z) -> list match_t -> list match_t.
Variable scorer : string -> string -> bool -> VALUE -> VALUE -> VALUE -> Q.

(** Modelled from the spec: [calculate_match] of [match.c], which is not
    among the sources. It fills the slot it is given with the candidate
    and the candidate's score (section 3, ScoredMatch). *)
Definition calculate_match (str needle : string) (case_sensitive : bool)
    (always_show_dot_files never_show_dot_files recurse : VALUE) : match_t :=
  {| path := str;
     score := scorer str needle case_sensitive always_show_dot_files
                never_show_dot_files recurse |}.

(** One turn of the loop of [match_thread] for the worker at position [k]:
    the test [i < args->path_count] and, when it holds, the body and
    [i += args->thread_count]. *)
Definition match_thread_iter (k : nat) (args : thread_args_t) (w : workers)
  : result workers :=
  match loop_i w !! k with
  | None => Ok w
  | Some i =>
      if i <? path_count args then
        if i <? 0 then Undefined else
        match paths args !! Z.to_nat i with
        | None => Undefined
        | Some path =>
            let m := calculate_match path (abbrev args) (case_sensitive args)
                       (always_show_dot_files args) (never_show_dot_files args)
                       (recurse args) in
            Ok {| shared_matches := <[Z.to_nat i := Some m]> (shared_matches w);
                  loop_i := <[k := i + thread_count args]> (loop_i w);
                  scored := scored w ++ [Ev_calculate_match (thread_index args) i] |}
        end
      else Ok w
  end.

(** [match_thread] run until its loop exits. *)
Fixpoint match_thread (fuel : nat) (k : nat) (args : thread_args_t)
    (w : workers) : result workers :=
  match loop_i w !! k with
  | None => Ok w
  | Some i =>
      if i <? path_count args then
        match fuel with
        | O => Hang
        | S fuel' =>
            let+ w' := match_thread_iter k args w in
            match_thread fuel' k args w'
        end
      else Ok w
  end.

Definition match_thread_at (fuel : nat) (thread_args : list thread_args_t)
    (k : nat) (w : workers) : result workers :=
  match thread_args !! k with
  | Some args => match_thread fuel k args w
  | None => Ok w
  end.

(** The workers running side by side: the schedule names, turn by turn,
    the worker whose loop makes the next turn. *)
Fixpoint interleave (sched : list nat) (thread_args : list thread_args_t)
    (w : workers) : result workers :=
  match sched with
  | [] => Ok w
  | k :: sched' =>
      match thread_args !! k with
      | Some args =>
          let+ w' := match_thread_iter k args w in
          interleave sched' thread_args w'
      | None => interleave sched' thread_args w
      end
  end.

(** [pthread_join] of each worker in turn: it returns once that worker's
    [match_thread] has. *)
Fixpoint join_all (fuel : nat) (thread_args : list thread_args_t)
    (ks : list nat) (w : workers) : result workers :=
  match ks with
  | [] => Ok w
  | k :: ks' =>
      let+ w' := match_thread_at fuel thread_args k w in
      join_all fuel thread_args ks' w'
  end.

(** Lines 202-204: [err = pthread_create(&threads[i], ...)] for the
    workers [ks] in turn, [rb_raise(rb_eSystemCallError, ...)] at the
    first one that is not 0. *)
Fixpoint create_threads (env : environment) (ks : list Z) : M unit :=
  match ks with
  | [] => ret tt
  | i :: ks' =>
      if pthread_create_err env i =? 0
      then let* _ := emit (Ev_pthread_create i) in create_threads env ks'
      else rb_raise rb_eSystemCallError
  end.

(** Lines 210-214: [err = pthread_join(threads[i], NULL)] for the workers
    [is] in turn, with the same raise. *)
Fixpoint join_threads (env : environment) (ks : list Z) : M unit :=
  match ks with
  | [] => ret tt
  | i :: ks' =>
      if pthread_join_err env i =? 0
      then let* _ := emit (Ev_pthread_join i) in join_threads env ks'
      else rb_raise rb_eSystemCallError
  end.

(** Lines 183-216: the workers [0 .. thread_count - 2] are created, the
    last stripe runs on the calling thread, then the workers are joined.
    A creation that fails raises before the calling thread scores
    anything, a join that fails raises before the buffer is read.
    [sched] is how the scheduler interleaves the turns of the loops until
    the calling thread goes to finish its own stripe; a schedule that
    names every turn describes any run. The trace lists the creations,
    the scoring in the order it happened, and the joins; when a creation
    fails it stops there and leaves out what the workers already running
    have scored. *)
Definition run_threads (env : environment) (sched : list nat)
    (thread_count : Z) (thread_args : list thread_args_t) (matches : buffer)
  : M buffer :=
  let fuel := S (length matches) in
  let w := {| shared_matches := matches;
              loop_i := thread_index <$> thread_args;
              scored := [] |} in
  let* _ := create_threads env (seqZ 0 (thread_count - 1)) in
  let* w := lift (let+ w := interleave sched thread_args w in
                  let+ w := match_thread_at fuel thread_args
                              (Z.to_nat (thread_count - 1)) w in
                  join_all fuel thread_args
                    (seq 0 (Z.to_nat (thread_count - 1))) w) in
  (scored w, Ok tt) ;;;
  let* _ := join_threads env (seqZ 0 (thread_count - 1)) in
  ret (shared_matches w).

(** [qsort(matches, path_count, sizeof(match_t), cmp)] *)
Definition qsort_buffer (cmp : match_t -> match_t -> Z) (matches : buffer)
  : M buffer :=
  match read_all matches with
  | Some ms => let* _ := emit Ev_qsort in ret (Some <$> qsort cmp ms)
  | None => lift Undefined
  end.

(** Lines 184-193: the arguments of worker [i]. *)
Definition fill_thread_args (thread_count : Z) (case_sensitive : VALUE)
    (path_count : Z) (paths : list string) (abbrev : string)
    (always_show_dot_files never_show_dot_files recurse : VALUE) (i : Z)
  : thread_args_t :=
  {| thread_count := int_of_long thread_count;
     thread_index := int_of_long i;
     case_sensitive := is_Qtrue case_sensitive;
     path_count := path_count;
     paths := paths;
     abbrev := abbrev;
     always_show_dot_files := always_show_dot_files;
     never_show_dot_files := never_show_dot_files;
     recurse := recurse |}.

Definition CommandTMatcher_sorted_matches_for (env : environment)
    (sched : list nat) (argv : list VALUE) (self : ivars) : M (list string) :=
  (* process arguments: 1 mandatory, 1 optional *)
  let* (abbrev, options) := lift (rb_scan_args_11 argv) in
  if NIL_P abbrev then rb_raise (rb_eArgError "nil abbrev") else
  (* check optional options hash for overrides *)
  let* case_sensitive := lift (CommandT_option_from_hash "case_sensitive" options) in
  let* limit_option := lift (CommandT_option_from_hash "limit" options) in
  let* threads_option := lift (CommandT_option_from_hash "threads" options) in
  let* sort_option := lift (CommandT_option_from_hash "sort" options) in
  let* ignore_spaces := lift (CommandT_option_from_hash "ignore_spaces" options) in
  let* recurse := lift (CommandT_option_from_hash "recurse" options) in
  let* abbrev := lift (StringValue abbrev) in
  let abbrev := if is_Qtrue case_sensitive then abbrev else downcase abbrev in
  let abbrev := if is_Qtrue ignore_spaces then delete_spaces abbrev else abbrev in
  (* get unsorted matches *)
  let scanner := rb_iv_get self "@scanner" in
  let* paths := rb_funcall_paths scanner in
  let always_show_dot_files := rb_iv_get self "@always_show_dot_files" in
  let never_show_dot_files := rb_iv_get self "@never_show_dot_files" in
  let path_count := Z.of_nat (length paths) in
  let* _ := malloc env 0 sizeof_match_t path_count in
  let matches : buffer := replicate (length paths) None in
  let* thread_count :=
    if NIL_P threads_option then ret 1 else lift (NUM2LONG threads_option) in
  let thread_count :=
    if path_count <? THREAD_THRESHOLD then 1 else thread_count in
  let* _ := malloc env 1 sizeof_pthread_t thread_count in
  let* _ := malloc env 2 sizeof_thread_args_t thread_count in
  let thread_args :=
    fill_thread_args thread_count case_sensitive path_count paths abbrev
      always_show_dot_files never_show_dot_files recurse
      <$> seqZ 0 thread_count in
  let* matches := run_threads env sched thread_count thread_args matches in
  let* _ := emit Ev_free in
  let* matches :=
    if NIL_P sort_option || is_Qtrue sort_option then
      if (RSTRING_LEN abbrev =? 0) || is_single_dot abbrev
      then (* alphabetic order if search string is only "" or "." *)
        qsort_buffer cmp_alpha matches
      else (* for all other non-empty search strings, sort by score *)
        qsort_buffer cmp_score matches
    else ret matches in
  let* limit :=
    if NIL_P limit_option then ret 0 else lift (NUM2LONG limit_option) in
  let limit := if limit =? 0 then path_count else limit in
  let* results := lift (collect matches limit) in
  let* _ := emit Ev_free in
  ret results.

(** ** The call, read off its arguments *)

(** The option [key] of [options]: nil when absent. *)
Definition opt (options : VALUE) (key : string) : VALUE :=
  match options with
  | RHash h => rb_hash_aref h key
  | _ => Qnil
  end.

(** The abbreviation as the scorer and the choice of comparator see it
    (lines 151-156). *)
Definition normalized (options : VALUE) (abbrev : string) : string :=
  let abbrev :=
    if is_Qtrue (opt options "case_sensitive") then abbrev else downcase abbrev in
  if is_Qtrue (opt options "ignore_spaces") then delete_spaces abbrev else abbrev.

(** Sorting is enabled: the [sort] option is absent or true. *)
Definition sort_enabled (options : VALUE) : bool :=
  NIL_P (opt options "sort") || is_Qtrue (opt options "sort").

(** The pattern is empty or the single character ".". *)
Definition alphabetic (pattern : string) : bool :=
  (RSTRING_LEN pattern =? 0) || is_single_dot pattern.

(** The worker count asked for, and the one used (lines 169-174). *)
Definition requested_threads (options : VALUE) : Z :=
  match opt options "threads" with Integer t => t | _ => 1 end.

Definition effective_threads (options : VALUE) (paths : list string) : Z :=
  if Z.of_nat (length paths) <? THREAD_THRESHOLD then 1
  else requested_threads options.

(** The [limit] option as a number, 0 when absent. *)
Definition limit_option (options : VALUE) : Z :=
  match opt options "limit" with Integer l => l | _ => 0 end.

Definition in_long (z : Z) : bool := (LONG_MIN <=? z) && (z <=? LONG_MAX).

(** A call the interface allows: the options are absent or a hash, the
    limit and the worker count are absent or integers that fit a [long],
    and the worker count in use is a positive [int]. *)
Definition call_ok (options : VALUE) (paths : list string) : bool :=
  match options with Qnil | RHash _ => true | _ => false end &&
  match opt options "limit" with
  | Qnil => true | Integer l => in_long l | _ => false end &&
  match opt options "threads" with
  | Qnil => true | Integer t => in_long t | _ => false end &&
  (1 <=? effective_threads options paths) &&
  (effective_threads options paths <=? INT_MAX).

(** The environment lets [thread_count] workers run: every creation and
    every join of the workers [0 .. thread_count - 2] returns 0. *)
Definition threads_start (env : environment) (thread_count : Z) : Prop :=
  forall i, 0 <= i < thread_count - 1 ->
    pthread_create_err env i = 0 /\ pthread_join_err env i = 0.

(** Nothing fails in the call: the three allocations are granted and the
    workers in use start and are joined. *)
Definition no_fault (env : environment) (options : VALUE)
    (paths : list string) : Prop :=
  malloc_fails env 0 sizeof_match_t (Z.of_nat (length paths)) = false /\
  malloc_fails env 1 sizeof_pthread_t (effective_threads options paths) = false /\
  malloc_fails env 2 sizeof_thread_args_t (effective_threads options paths)
    = false /\
  threads_start env (effective_threads options paths).

(** The exception of a call in which something fails. *)
Definition fault_of (env : environment) (options : VALUE)
    (paths : list string) : rb_exception :=
  if malloc_fails env 0 sizeof_match_t (Z.of_nat (length paths)) ||
     malloc_fails env 1 sizeof_pthread_t (effective_threads options paths) ||
     malloc_fails env 2 sizeof_thread_args_t (effective_threads options paths)
  then rb_eNoMemError
  else rb_eSystemCallError.

(** The score of a candidate in a call. *)
Definition score_of (self : ivars) (options : VALUE) (abbrev : string)
    (p : string) : Q :=
  scorer p (normalized options abbrev) (is_Qtrue (opt options "case_sensitive"))
    (rb_iv_get self "@always_show_dot_files")
    (rb_iv_get self "@never_show_dot_files") (opt options "recurse").

(** The buffer once every candidate is scored. *)
Definition score_all (self : ivars) (options : VALUE) (abbrev : string)
    (paths : list string) : list match_t :=
  (fun p => {| path := p; score := score_of self options abbrev p |}) <$> paths.

(** The buffer as the result loop reads it. *)
Definition ranked (self : ivars) (options : VALUE) (abbrev : string)
    (paths : list string) : list match_t :=
  let ms := score_all self options abbrev paths in
  if sort_enabled options then
    if alphabetic (normalized options abbrev)
    then qsort cmp_alpha ms else qsort cmp_score ms
  else ms.

(** The result loop on a buffer that was written everywhere. *)
Fixpoint take_matches (ms : list match_t) (limit : Z) : list string :=
  match ms with
  | [] => []
  | m :: ms' =>
      if limit >? 0 then
        if Qltb 0 (score m) then path m :: take_matches ms' (limit - 1)
        else take_matches ms' limit
      else []
  end.

(** The limit the result loop starts from (lines 230-232). *)
Definition start_limit (options : VALUE) (paths : list string) : Z :=
  if limit_option options =? 0 then Z.of_nat (length paths)
  else limit_option options.

#[global] Instance Qlt_decision (x y : Q) : Decision (x < y)%Q.
Proof.
  destruct (Qlt_le_dec x y) as [H|H]; [left; exact H | right].
  apply Qle_not_lt, H.
Defined.

(** The candidates of a buffer whose score is positive, in the buffer's
    order: what the result loop pushes when no limit stops it. *)
Definition hits (ms : list match_t) : list string :=
  path <$> filter (fun m => (0 < score m)%Q) ms.

(** [cmp_alpha] does not put [p] after [q]. *)
Definition alpha_le (p q : string) : Prop :=
  cmp_alpha {| path := p; score := 0 |} {| path := q; score := 0 |} <= 0.

(** The order of two result entries under the alphabetic comparator; for
    paths without a NUL byte it is the byte-wise rule of the
    specification. *)
Definition alpha_ordered (p q : string) : Prop :=
  alpha_le p q /\
  (nul_free p = true -> nul_free q = true -> bytewise_compare p q <> Gt).

(** The order of two result entries when the buffer is sorted by score:
    the earlier one scores at least as high, and on equal scores the
    alphabetic comparator decides. *)
Definition score_ordered (self : ivars) (options : VALUE) (abbrev : string)
    (p q : string) : Prop :=
  (score_of self options abbrev q <= score_of self options abbrev p)%Q /\
  ((score_of self options abbrev p == score_of self options abbrev q)%Q ->
   alpha_ordered p q).

(** ** Predicates of the proofs *)

(** [m] leaves the trace [t] and returns [x]. *)
Definition runs {A} (m : M A) (t : list event) (x : A) : Prop := m = (t, Ok x).

(** The loop variable of the worker whose stripe holds slot [j], and
    whether that worker is past the slot. *)
Definition owner_i (T : Z) (w : workers) (j : nat) : Z :=
  default 0 (loop_i w !! Z.to_nat (Z.of_nat j mod T)).

Definition written (T : Z) (w : workers) (j : nat) : bool :=
  Z.of_nat j <? owner_i T w j.

(** The invariant of [T] workers over the candidates [ps]: every worker
    [k] stands at a slot of its own stripe, the slots it has passed hold
    the score of their candidate and were scored once, and no other slot
    was touched. *)
Record stripes_inv (ps : list string) (T : Z) (cs : VALUE) (ab : string)
    (al nv rc : VALUE) (w : workers) : Prop := {
  inv_len_i : length (loop_i w) = Z.to_nat T;
  inv_len_m : length (shared_matches w) = length ps;
  inv_i : forall k i, loop_i w !! k = Some i ->
            Z.of_nat k <= i /\ (i - Z.of_nat k) mod T = 0;
  inv_m : forall j p, ps !! j = Some p ->
            shared_matches w !! j =
            Some (if written T w j
                  then Some (calculate_match p ab (is_Qtrue cs) al nv rc)
                  else None);
  inv_nodup : NoDup (scored w);
  inv_scored : forall e, e ∈ scored w <->
            exists j, (j < length ps)%nat /\ written T w j = true /\
                      e = Ev_calculate_match (Z.of_nat j mod T) (Z.of_nat j)
}.

Arguments inv_len_i {ps T cs ab al nv rc} w _.
Arguments inv_len_m {ps T cs ab al nv rc} w _.
Arguments inv_i {ps T cs ab al nv rc} w _ k i _.
Arguments inv_m {ps T cs ab al nv rc} w _ j p _.
Arguments inv_nodup {ps T cs ab al nv rc} w _.
Arguments inv_scored {ps T cs ab al nv rc} w _ e.

(** No worker ever steps back, and worker [k] has left its loop over
    [path_count] slots. *)
Definition no_step_back (w w' : workers) : Prop :=
  forall k i, loop_i w !! k = Some i ->
    exists i', loop_i w' !! k = Some i' /\ i <= i'.

Definition past (path_count : Z) (k : nat) (w : workers) : Prop :=
  exists i, loop_i w !! k = Some i /\ path_count <= i.

(** ** Calls outside the interface *)

(** The options are absent or a hash. *)
Definition options_ok (options : VALUE) : bool :=
  match options with Qnil | RHash _ => true | _ => false end.

(** The options are absent or a hash, the worker count is absent or an
    integer that fits a [long], and the worker count in use is a positive
    [int]; nothing is asked of the limit. *)
Definition workers_ok (options : VALUE) (paths : list string) : bool :=
  options_ok options &&
  match opt options "threads" with
  | Qnil => true | Integer t => in_long t | _ => false end &&
  (1 <=? effective_threads options paths) &&
  (effective_threads options paths <=? INT_MAX).

(** The order of the result when sorting is on. *)
Definition result_order (self : ivars) (options : VALUE) (abbrev : string)
  : string -> string -> Prop :=
  if alphabetic (normalized options abbrev) then alpha_ordered
  else score_ordered self options abbrev.

(** Another sort that meets the contract of [qsort]; elements that
    compare equal come out in the reverse of their input order. *)
Definition qsort_reversing (cmp : match_t -> match_t -> Z)
    (l : list match_t) : list match_t :=
  qsort_insertion cmp (reverse l).

(** ** Sample calls *)

(** An environment in which the thread library starts 494 workers and
    refuses the next ones with [EAGAIN], and one in which the third
    allocation of a call is refused. *)
Definition crowded : environment :=
  {| malloc_null := fun _ => false;
     pthread_create_err := fun i => if i <? 494 then 0 else 11;
     pthread_join_err := fun _ => 0 |}.

Definition exhausted : environment :=
  {| malloc_null := fun site => Nat.eqb site 2;
     pthread_create_err := fun _ => 0;
     pthread_join_err := fun _ => 0 |}.

Definition sample_paths : list string :=
  ["foo/bar.txt"; "qux.txt"; "foo/baz.txt"; "foo"]%string.

Definition sample_self : ivars := [("@scanner"%string, Scanner sample_paths)].

(** Enough candidates for the workers to be used. *)
Definition many_paths : list string :=
  sample_paths ++ replicate 1000 "lib/command-t/finder.rb"%string.

Definition many_self : ivars := [("@scanner"%string, Scanner many_paths)].

Definition with_threads (t : Z) : VALUE := RHash [("threads"%string, Integer t)].
Definition with_limit (l : Z) : VALUE := RHash [("limit"%string, Integer l)].

(** Two paths of three bytes that differ after a NUL byte. *)
Definition a_nul_b : string := String "a" (String Ascii.zero (String "b" EmptyString)).
Definition a_nul_c : string := String "a" (String Ascii.zero (String "c" EmptyString)).

Definition nul_self : ivars := [("@scanner"%string, Scanner [a_nul_c; a_nul_b])].

Definition readme_self : ivars :=
  [("@scanner"%string, Scanner ["README"; "a.txt"]%string)].

(** * Properties *)

(** ** The comparison functions *)

Ltac zcases :=
  repeat match goal with
         | |- context [?x >? ?y] => destruct (Z.gtb_spec x y)
         | |- context [?x <? ?y] => destruct (Z.ltb_spec x y)
         | |- context [?x =? ?y] => destruct (Z.eqb_spec x y)
         | H : context [?x >? ?y] |- _ => destruct (Z.gtb_spec x y)
         | H : context [?x <? ?y] |- _ => destruct (Z.ltb_spec x y)
         | H : context [?x =? ?y] |- _ => destruct (Z.eqb_spec x y)
         end.

Lemma byte_of_inj c d : byte_of c = byte_of d -> c = d.
Proof.
  unfold byte_of. intros H. apply N2Z.inj in H.
  rewrite <- (ascii_N_embedding c), <- (ascii_N_embedding d). now rewrite H.
Qed.

Lemma byte_of_range c : 0 <= byte_of c < 256.
Proof.
  unfold byte_of. pose proof (N_ascii_bounded c). lia.
Qed.

Lemma length_order_cons c d s t :
  length_order (String c s) (String d t) = length_order s t.
Proof.
  unfold length_order, RSTRING_LEN. cbn [String.length].
  repeat match goal with
         | |- context [?x >? ?y] => destruct (Z.gtb_spec x y)
         | |- context [?x <? ?y] => destruct (Z.ltb_spec x y)
         end; lia.
Qed.

Lemma strncmp_cons c d s t n :
  strncmp_bytes (String c s) (String d t) (S n) =
  if byte_of c =? byte_of d
  then if byte_of c =? 0 then 0 else strncmp_bytes s t n
  else byte_of c - byte_of d.
Proof. reflexivity. Qed.

Lemma cmp_alpha_alpha_rec a b : cmp_alpha a b = alpha_rec (path a) (path b).
Proof.
  destruct a as [s sa], b as [t sb].
  unfold cmp_alpha; cbn [path]. clear sa sb. unfold strncmp, RSTRING_LEN.
  rewrite !Nat2Z.id.
  revert t; induction s as [|c s IH]; intros [|d t]; cbn [String.length alpha_rec].
  - reflexivity.
  - reflexivity.
  - reflexivity.
  - specialize (IH t).
    rewrite !strncmp_cons.
    destruct (byte_of c =? byte_of d) eqn:Hcd.
    + destruct (byte_of c =? 0) eqn:Hc0.
      * unfold length_order, RSTRING_LEN.
        repeat match goal with
               | |- context [?x >? ?y] => destruct (Z.gtb_spec x y)
               | |- context [?x <? ?y] => destruct (Z.ltb_spec x y)
               end; cbn; lia.
      * rewrite <- IH.
        repeat match goal with
               | |- context [?x >? ?y] => destruct (Z.gtb_spec x y)
               | |- context [?x <? ?y] => destruct (Z.ltb_spec x y)
               end; try lia; reflexivity.
    + apply Z.eqb_neq in Hcd.
      assert ((byte_of c - byte_of d =? 0) = false) as -> by (apply Z.eqb_neq; lia).
      repeat match goal with
             | |- context [?x >? ?y] => destruct (Z.gtb_spec x y)
             | |- context [?x <? ?y] => destruct (Z.ltb_spec x y)
             end; reflexivity.
Qed.

Lemma length_order_antisym s t : length_order t s = - length_order s t.
Proof. unfold length_order. zcases; lia. Qed.

Lemma length_order_trans s t u :
  length_order s t <= 0 -> length_order t u <= 0 -> length_order s u <= 0.
Proof. unfold length_order. zcases; lia. Qed.

Lemma length_order_zero s t :
  length_order s t = 0 <-> String.length s = String.length t.
Proof. unfold length_order, RSTRING_LEN. zcases; lia. Qed.

Lemma alpha_rec_antisym s t : alpha_rec t s = - alpha_rec s t.
Proof.
  revert t; induction s as [|c s IH]; intros [|d t]; cbn [alpha_rec]; try lia.
  rewrite (Z.eqb_sym (byte_of d)).
  destruct (Z.eqb_spec (byte_of c) (byte_of d)) as [E|E]; [|lia].
  rewrite <- E. destruct (byte_of c =? 0); [apply length_order_antisym | apply IH].
Qed.

Lemma alpha_rec_trans s t u :
  alpha_rec s t <= 0 -> alpha_rec t u <= 0 -> alpha_rec s u <= 0.
Proof.
  revert t u; induction s as [|c s IH]; intros [|d t] [|e u];
    cbn [alpha_rec]; try lia.
  pose proof (byte_of_range c); pose proof (byte_of_range d);
    pose proof (byte_of_range e).
  destruct (Z.eqb_spec (byte_of c) (byte_of d)) as [E1|E1];
    destruct (Z.eqb_spec (byte_of d) (byte_of e)) as [E2|E2];
    destruct (Z.eqb_spec (byte_of c) (byte_of e)) as [E3|E3];
    destruct (Z.eqb_spec (byte_of c) 0) as [E4|E4];
    destruct (Z.eqb_spec (byte_of d) 0) as [E5|E5];
    try lia; eauto using length_order_trans.
Qed.

Lemma alpha_rec_zero s t :
  alpha_rec s t = 0 <->
  String.length s = String.length t /\ c_str s = c_str t.
Proof.
  clear qsort scorer.
  revert t; induction s as [|c s IH]; intros [|d t];
    cbn [alpha_rec c_str String.length].
  - tauto.
  - split; [lia | intros [? _]; discriminate].
  - split; [lia | intros [? _]; discriminate].
  - destruct (Z.eqb_spec (byte_of c) (byte_of d)) as [E|E].
    + rewrite <- E. apply byte_of_inj in E as <-.
      destruct (byte_of c =? 0).
      * rewrite length_order_zero. split; [intros ->; tauto | intros [? _]; lia].
      * rewrite IH. split.
        -- intros [-> ->]. tauto.
        -- intros [? ?]. split; [lia | congruence].
    + split; [lia|]. intros [_ Hc].
      destruct (Z.eqb_spec (byte_of c) 0) as [E0|E0];
        destruct (Z.eqb_spec (byte_of d) 0) as [E1|E1];
        try discriminate; try lia.
      inversion Hc; subst. lia.
Qed.

Lemma c_str_nul_free s : nul_free s = true -> c_str s = s.
Proof.
  induction s as [|c s IH]; cbn [nul_free c_str]; [reflexivity|].
  intros [Hc Hs]%andb_true_iff. rewrite (negb_true_iff _) in Hc.
  rewrite Hc, IH; auto.
Qed.

Lemma alpha_rec_bytewise s t :
  nul_free s = true -> nul_free t = true ->
  (alpha_rec s t ?= 0) = bytewise_compare s t.
Proof.
  revert t; induction s as [|c s IH]; intros [|d t];
    cbn [alpha_rec bytewise_compare nul_free]; try reflexivity.
  intros [Hc Hs]%andb_true_iff [Hd Ht]%andb_true_iff.
  rewrite (negb_true_iff _) in Hc.
  destruct (Z.eqb_spec (byte_of c) (byte_of d)) as [E|E].
  - rewrite E, Z.compare_refl, <- E, Hc. now apply IH.
  - rewrite <- Z.compare_sub.
    destruct (Z.compare_spec (byte_of c) (byte_of d)); [lia | reflexivity..].
Qed.

Lemma cmp_alpha_sgn a b : Z.sgn (cmp_alpha b a) = - Z.sgn (cmp_alpha a b).
Proof.
  rewrite !cmp_alpha_alpha_rec, (alpha_rec_antisym (path a)). apply Z.sgn_opp.
Qed.

Lemma cmp_alpha_trans a b c :
  cmp_alpha a b <= 0 -> cmp_alpha b c <= 0 -> cmp_alpha a c <= 0.
Proof. rewrite !cmp_alpha_alpha_rec. apply alpha_rec_trans. Qed.

Lemma cmp_alpha_consistent : consistent cmp_alpha.
Proof. split; [apply cmp_alpha_sgn | apply cmp_alpha_trans]. Qed.

Lemma Qltb_lt x y : Qltb x y = true <-> (x < y)%Q.
Proof.
  unfold Qltb. rewrite Qlt_alt. destruct (x ?= y)%Q; split; congruence.
Qed.

Lemma Qltb_ge x y : Qltb x y = false <-> (y <= x)%Q.
Proof.
  rewrite <- not_true_iff_false, Qltb_lt. split; [apply Qnot_lt_le | apply Qle_not_lt].
Qed.

(** What [cmp_score a b <= 0] says: [a] scores higher, or the scores are
    equal and [cmp_alpha] puts [a] no later. *)
Lemma cmp_score_le a b :
  cmp_score a b <= 0 <->
  (score b < score a)%Q \/ (score a == score b /\ cmp_alpha a b <= 0).
Proof.
  unfold cmp_score.
  destruct (Qltb (score b) (score a)) eqn:E1.
  - apply Qltb_lt in E1. split; [tauto | lia].
  - apply Qltb_ge in E1. destruct (Qltb (score a) (score b)) eqn:E2.
    + apply Qltb_lt in E2. split; [lia|]. intros [?|[? _]]; lra.
    + apply Qltb_ge in E2. split.
      * intros ?. right. split; [lra | assumption].
      * intros [?|[_ ?]]; [lra | assumption].
Qed.

Lemma cmp_score_sgn a b : Z.sgn (cmp_score b a) = - Z.sgn (cmp_score a b).
Proof.
  unfold cmp_score.
  destruct (Qltb (score b) (score a)) eqn:E1;
    destruct (Qltb (score a) (score b)) eqn:E2;
    try reflexivity; [|apply cmp_alpha_sgn].
  apply Qltb_lt in E1, E2. lra.
Qed.

Lemma cmp_score_trans a b c :
  cmp_score a b <= 0 -> cmp_score b c <= 0 -> cmp_score a c <= 0.
Proof.
  rewrite !cmp_score_le. intros [H1|[H1 A1]] [H2|[H2 A2]].
  - left; lra.
  - left; lra.
  - left; lra.
  - right. split; [lra | eauto using cmp_alpha_trans].
Qed.

Lemma cmp_score_consistent : consistent cmp_score.
Proof. split; [apply cmp_score_sgn | apply cmp_score_trans]. Qed.

(** ** The reference sort meets the contract of [qsort] *)

Lemma insert_by_Permutation cmp x l : insert_by cmp x l ≡ₚ x :: l.
Proof.
  induction l as [|y l IH]; cbn [insert_by]; [reflexivity|].
  destruct (cmp x y <=? 0); [reflexivity|].
  rewrite IH. apply Permutation_swap.
Qed.

Lemma qsort_insertion_Permutation cmp l : qsort_insertion cmp l ≡ₚ l.
Proof.
  induction l as [|x l IH]; cbn [qsort_insertion]; [reflexivity|].
  rewrite insert_by_Permutation. now rewrite IH.
Qed.

Lemma insert_by_sorted cmp x l :
  consistent cmp ->
  StronglySorted (before cmp) l -> StronglySorted (before cmp) (insert_by cmp x l).
Proof.
  intros [Hsgn Htrans]. induction 1 as [|y l Hl IH Hy]; cbn [insert_by].
  - repeat constructor.
  - destruct (Z.leb_spec (cmp x y) 0) as [Hle|Hgt].
    + constructor; [constructor; assumption|].
      constructor; [exact Hle|].
      eapply Forall_impl; [exact Hy|]. intros z Hz. exact (Htrans _ _ _ Hle Hz).
    + assert (before cmp y x) as Hyx.
      { unfold before. specialize (Hsgn x y).
        destruct (cmp y x), (cmp x y); cbn in *; lia. }
      constructor; [exact IH|].
      rewrite insert_by_Permutation. constructor; assumption.
Qed.

Lemma qsort_insertion_sorted cmp l :
  consistent cmp -> StronglySorted (before cmp) (qsort_insertion cmp l).
Proof.
  intros Hc. induction l as [|x l IH]; cbn [qsort_insertion].
  - constructor.
  - now apply insert_by_sorted.
Qed.

(** ** The striped workers *)

Lemma int_of_long_id z : - 2 ^ 31 <= z <= INT_MAX -> int_of_long z = z.
Proof.
  unfold int_of_long, INT_MAX. intros H.
  rewrite Z.mod_small; lia.
Qed.

Lemma stripe_owner T k i :
  0 < T -> 0 <= k < T -> (i - k) mod T = 0 -> i mod T = k.
Proof.
  intros HT Hk Hm.
  replace i with (k + (i - k)) by lia.
  rewrite Z.add_mod, Hm, Z.add_0_r, Z.mod_mod, Z.mod_small by lia. reflexivity.
Qed.

Lemma stripe_next T i j :
  0 < T -> j mod T = i mod T -> i <= j < i + T -> j = i.
Proof.
  intros HT Hm Hj.
  pose proof (Z.div_mod i T ltac:(lia)) as Hi.
  pose proof (Z.div_mod j T ltac:(lia)) as Hj'.
  pose proof (Z.mod_pos_bound i T HT).
  assert (j / T = i / T) by nia. nia.
Qed.

(** The creation loop and the join loop: all the calls return 0 and the
    loop runs to its end, or one does not and the loop raises. *)
Lemma create_threads_outcome env ks :
  (Forall (fun i => pthread_create_err env i = 0) ks /\
   create_threads env ks = (Ev_pthread_create <$> ks, Ok tt)) \/
  (~ Forall (fun i => pthread_create_err env i = 0) ks /\
   exists t, create_threads env ks = (t, Raise rb_eSystemCallError)).
Proof.
  induction ks as [|i ks IH]; cbn [create_threads].
  - left. split; [constructor | reflexivity].
  - destruct (Z.eqb_spec (pthread_create_err env i) 0) as [E|E].
    + destruct IH as [[HF ->] | [HF [t ->]]].
      * left. split; [now constructor | reflexivity].
      * right. split; [|eexists; reflexivity].
        intros H. apply HF. now inversion H.
    + right. split; [|eexists; reflexivity].
      intros H. apply E. now inversion H.
Qed.

Lemma join_threads_outcome env ks :
  (Forall (fun i => pthread_join_err env i = 0) ks /\
   join_threads env ks = (Ev_pthread_join <$> ks, Ok tt)) \/
  (~ Forall (fun i => pthread_join_err env i = 0) ks /\
   exists t, join_threads env ks = (t, Raise rb_eSystemCallError)).
Proof.
  induction ks as [|i ks IH]; cbn [join_threads].
  - left. split; [constructor | reflexivity].
  - destruct (Z.eqb_spec (pthread_join_err env i) 0) as [E|E].
    + destruct IH as [[HF ->] | [HF [t ->]]].
      * left. split; [now constructor | reflexivity].
      * right. split; [|eexists; reflexivity].
        intros H. apply HF. now inversion H.
    + right. split; [|eexists; reflexivity].
      intros H. apply E. now inversion H.
Qed.

Lemma threads_start_Forall env T :
  threads_start env T <->
  Forall (fun i => pthread_create_err env i = 0) (seqZ 0 (T - 1)) /\
  Forall (fun i => pthread_join_err env i = 0) (seqZ 0 (T - 1)).
Proof.
  unfold threads_start. rewrite !Forall_forall. split.
  - intros H. split; intros i Hi%elem_of_seqZ; apply H; lia.
  - intros [Hc Hj] i Hi. split; [apply Hc | apply Hj]; apply elem_of_seqZ; lia.
Qed.

Lemma threads_start_dec env T : threads_start env T \/ ~ threads_start env T.
Proof.
  rewrite threads_start_Forall.
  destruct (create_threads_outcome env (seqZ 0 (T - 1))) as [[Hc _] | [Hc _]];
    [|right; tauto].
  destruct (join_threads_outcome env (seqZ 0 (T - 1))) as [[Hj _] | [Hj _]];
    [left | right]; tauto.
Qed.

Section Workers.

Variables (ps : list string) (T : Z) (cs : VALUE) (ab : string).
Variables (al nv rc : VALUE).
Hypothesis HT : 1 <= T <= INT_MAX.

Set Default Proof Using "Type HT".

Local Abbreviation n := (Z.of_nat (length ps)).
Local Abbreviation targs :=
  (fill_thread_args T cs n ps ab al nv rc <$> seqZ 0 T).
Local Abbreviation calc p := (calculate_match p ab (is_Qtrue cs) al nv rc).
Local Abbreviation ev j := (Ev_calculate_match (Z.of_nat j mod T) (Z.of_nat j)).
Local Abbreviation stripes_inv := (stripes_inv ps T cs ab al nv rc).
Local Abbreviation past := (past n).

Lemma targs_lookup k :
  (k < Z.to_nat T)%nat ->
  targs !! k = Some (fill_thread_args T cs n ps ab al nv rc (Z.of_nat k)).
Proof.
  intros Hk. rewrite list_lookup_fmap, lookup_seqZ_lt by lia.
  cbn. repeat f_equal; lia.
Qed.

Lemma targs_lookup_Some k args :
  targs !! k = Some args ->
  (k < Z.to_nat T)%nat /\ args = fill_thread_args T cs n ps ab al nv rc (Z.of_nat k).
Proof.
  intros H. assert (k < Z.to_nat T)%nat as Hk.
  { apply lookup_lt_Some in H. rewrite length_fmap, length_seqZ in H. lia. }
  split; [exact Hk|]. rewrite targs_lookup in H by exact Hk. congruence.
Qed.

Lemma written_step w w' k i j :
  stripes_inv w -> loop_i w !! k = Some i ->
  loop_i w' = <[k := i + T]> (loop_i w) ->
  written T w' j = written T w j || (Z.of_nat j =? i).
Proof.
  intros Hinv Hk Hw'. unfold written, owner_i. rewrite Hw'.
  destruct (inv_i _ Hinv _ _ Hk) as [Hki Hmod].
  assert (k < Z.to_nat T)%nat as HkT.
  { rewrite <- (inv_len_i _ Hinv). eapply lookup_lt_Some, Hk. }
  assert (i mod T = Z.of_nat k) as Hown by (apply stripe_owner; lia).
  pose proof (Z.mod_pos_bound (Z.of_nat j) T ltac:(lia)) as Hj.
  destruct (decide (Z.to_nat (Z.of_nat j mod T) = k)) as [E|E].
  - rewrite E, list_lookup_insert_eq, Hk by (eapply lookup_lt_Some, Hk). cbn.
    destruct (Z.ltb_spec (Z.of_nat j) (i + T)), (Z.ltb_spec (Z.of_nat j) i),
      (Z.eqb_spec (Z.of_nat j) i); cbn; try reflexivity; try lia.
    exfalso. assert (Z.of_nat j = i); [|lia].
    apply (stripe_next T); lia.
  - rewrite list_lookup_insert_ne by congruence.
    destruct (Z.eqb_spec (Z.of_nat j) i) as [E'|E']; [|now rewrite orb_false_r].
    exfalso. apply E. rewrite E', Hown. lia.
Qed.

Lemma written_at w k i :
  stripes_inv w -> loop_i w !! k = Some i -> written T w (Z.to_nat i) = false.
Proof.
  intros Hinv Hk. unfold written, owner_i.
  destruct (inv_i _ Hinv _ _ Hk) as [Hki Hmod].
  assert (k < Z.to_nat T)%nat as HkT.
  { rewrite <- (inv_len_i _ Hinv). eapply lookup_lt_Some, Hk. }
  assert (i mod T = Z.of_nat k) as Hown by (apply stripe_owner; lia).
  rewrite Z2Nat.id, Hown, Nat2Z.id, Hk by lia. cbn. apply Z.ltb_irrefl.
Qed.

(** One turn of a worker's loop keeps the invariant, never leaves the
    buffer, and moves that worker by one stride. *)
Lemma match_thread_iter_inv w k args :
  stripes_inv w -> targs !! k = Some args ->
  exists w', match_thread_iter k args w = Ok w' /\ stripes_inv w' /\
    (forall k' i, loop_i w !! k' = Some i ->
       exists i', loop_i w' !! k' = Some i' /\ i <= i') /\
    (forall i, loop_i w !! k = Some i -> i < n ->
       loop_i w' !! k = Some (i + T)).
Proof.
  intros Hinv Hargs. apply targs_lookup_Some in Hargs as [HkT ->].
  unfold match_thread_iter, fill_thread_args;
    cbn [path_count paths thread_count thread_index abbrev case_sensitive
         always_show_dot_files never_show_dot_files recurse].
  rewrite !int_of_long_id by (unfold INT_MAX in *; lia).
  destruct (loop_i w !! k) as [i|] eqn:Hk.
  2:{ apply lookup_ge_None in Hk. rewrite (inv_len_i _ Hinv) in Hk. lia. }
  destruct (inv_i _ Hinv _ _ Hk) as [Hki Hmod].
  assert (i mod T = Z.of_nat k) as Hown by (apply stripe_owner; lia).
  destruct (Z.ltb_spec i n) as [Hin|Hin].
  2:{ exists w. split; [reflexivity|]. split; [assumption|]. split.
      - intros k' i' Hl. exists i'. split; [assumption | lia].
      - intros i' [= <-] ?. lia. }
  destruct (Z.ltb_spec i 0) as [?|_]; [lia|].
  destruct (ps !! Z.to_nat i) as [p|] eqn:Hp.
  2:{ apply lookup_ge_None in Hp. lia. }
  eexists. split; [reflexivity|].
  set (w' := {| shared_matches := _; loop_i := _; scored := _ |}).
  assert (forall j, written T w' j = written T w j || (Z.of_nat j =? i)) as Hwr.
  { intros j. eapply written_step; [exact Hinv | exact Hk | reflexivity]. }
  split; [|split].
  - split; unfold w' at 1; cbn [loop_i shared_matches scored].
    + rewrite length_insert. apply Hinv.
    + rewrite length_insert. apply Hinv.
    + intros k' i'. destruct (decide (k' = k)) as [->|Hne].
      * rewrite list_lookup_insert_eq by (eapply lookup_lt_Some, Hk).
        intros [= <-]. split; [lia|].
        replace (i + T - Z.of_nat k) with (i - Z.of_nat k + 1 * T) by lia.
        now rewrite Z_mod_plus_full.
      * rewrite list_lookup_insert_ne by congruence. apply Hinv.
    + intros j q Hq. rewrite Hwr.
      destruct (Z.eqb_spec (Z.of_nat j) i) as [E|E].
      * rewrite orb_true_r. assert (Z.to_nat i = j) as Hij by lia.
        rewrite Hij in *. rewrite list_lookup_insert_eq.
        -- congruence.
        -- rewrite (inv_len_m _ Hinv). eapply lookup_lt_Some, Hq.
      * rewrite orb_false_r, list_lookup_insert_ne by lia.
        now apply Hinv.
    + apply NoDup_app. split; [apply Hinv|]. split; [|apply NoDup_singleton].
      intros e He [= ->]%list_elem_of_singleton.
      apply (inv_scored _ Hinv) in He as (j & _ & Hw & [= _ Hj]).
      assert (j = Z.to_nat i) as -> by lia.
      rewrite (written_at _ _ _ Hinv Hk) in Hw. discriminate.
    + intros e. rewrite elem_of_app, (inv_scored _ Hinv), list_elem_of_singleton.
      split.
      * intros [(j & Hj & Hw & ->) | ->].
        -- exists j. rewrite Hwr, Hw. auto.
        -- exists (Z.to_nat i). rewrite Hwr, Z2Nat.id, Z.eqb_refl, orb_true_r, Hown by lia.
           split; [lia | auto].
      * intros (j & Hj & Hw & ->). rewrite Hwr in Hw.
        apply orb_true_iff in Hw as [Hw | Hw%Z.eqb_eq].
        -- left. eauto.
        -- right. rewrite Hw, Hown. reflexivity.
  - intros k' i'. unfold w'; cbn [loop_i]. destruct (decide (k' = k)) as [->|Hne].
    + rewrite Hk. intros [= <-]. exists (i + T).
      rewrite list_lookup_insert_eq by (eapply lookup_lt_Some, Hk). split; [reflexivity | lia].
    + intros Hl. exists i'. rewrite list_lookup_insert_ne by congruence.
      split; [assumption | lia].
  - intros i' [= <-] _. unfold w'; cbn [loop_i].
    now rewrite list_lookup_insert_eq by (eapply lookup_lt_Some, Hk).
Qed.

Lemma no_step_back_refl w : no_step_back w w.
Proof. intros k i H. exists i. split; [assumption | lia]. Qed.

Lemma no_step_back_trans w1 w2 w3 :
  no_step_back w1 w2 -> no_step_back w2 w3 -> no_step_back w1 w3.
Proof.
  intros H12 H23 k i H. destruct (H12 _ _ H) as (i2 & H2 & ?).
  destruct (H23 _ _ H2) as (i3 & H3 & ?). exists i3. split; [assumption | lia].
Qed.

Lemma past_no_step_back k w w' : past k w -> no_step_back w w' -> past k w'.
Proof.
  intros (i & Hi & ?) Hm. destruct (Hm _ _ Hi) as (i' & Hi' & ?).
  exists i'. split; [assumption | lia].
Qed.

Lemma interleave_inv sched w :
  stripes_inv w ->
  exists w', interleave sched targs w = Ok w' /\ stripes_inv w' /\ no_step_back w w'.
Proof.
  revert w; induction sched as [|k sched IH]; intros w Hinv; cbn [interleave].
  - exists w. auto using no_step_back_refl.
  - destruct (targs !! k) as [args|] eqn:Hargs; [|now apply IH].
    destruct (match_thread_iter_inv w k args Hinv Hargs) as (w1 & -> & Hinv1 & Hm1 & _).
    cbn [rbind]. destruct (IH w1 Hinv1) as (w2 & -> & Hinv2 & Hm2).
    exists w2. eauto using no_step_back_trans.
Qed.

Lemma match_thread_inv fuel k args w i :
  stripes_inv w -> targs !! k = Some args -> loop_i w !! k = Some i ->
  (Z.to_nat (n - i) <= fuel)%nat ->
  exists w', match_thread fuel k args w = Ok w' /\ stripes_inv w' /\
    no_step_back w w' /\ past k w'.
Proof.
  assert (forall w i, stripes_inv w -> loop_i w !! k = Some i -> n <= i ->
            exists w', Ok w = Ok w' /\ stripes_inv w' /\
              no_step_back w w' /\ past k w') as Hdone.
  { intros w0 i0 ? ? ?. exists w0. split; [reflexivity|]. split; [assumption|].
    split; [apply no_step_back_refl|]. exists i0. auto. }
  revert w i; induction fuel as [|fuel IH]; intros w i Hinv Hargs Hk Hfuel;
    cbn [match_thread]; rewrite Hk;
    pose proof (targs_lookup_Some _ _ Hargs) as [_ Heq];
    assert (path_count args = n) as -> by (rewrite Heq; reflexivity);
    (destruct (Z.ltb_spec i n) as [Hin|Hin]; [|now apply (Hdone w i)]).
  - lia.
  - destruct (match_thread_iter_inv w k args Hinv Hargs) as (w1 & -> & Hinv1 & Hm1 & Hk1).
    cbn [rbind]. specialize (Hk1 _ Hk Hin).
    destruct (IH w1 (i + T) Hinv1 Hargs Hk1 ltac:(lia)) as (w2 & -> & Hinv2 & Hm2 & Hp).
    exists w2. eauto using no_step_back_trans.
Qed.

Lemma match_thread_at_inv fuel k w :
  stripes_inv w -> (length ps < fuel)%nat ->
  exists w', match_thread_at fuel targs k w = Ok w' /\ stripes_inv w' /\
    no_step_back w w' /\ ((k < Z.to_nat T)%nat -> past k w').
Proof.
  intros Hinv Hfuel. unfold match_thread_at.
  destruct (targs !! k) as [args|] eqn:Hargs.
  - pose proof (targs_lookup_Some _ _ Hargs) as [HkT _].
    destruct (loop_i w !! k) as [i|] eqn:Hk.
    2:{ apply lookup_ge_None in Hk. rewrite (inv_len_i _ Hinv) in Hk. lia. }
    destruct (inv_i _ Hinv _ _ Hk) as [Hki _].
    destruct (match_thread_inv fuel k args w i Hinv Hargs Hk ltac:(lia))
      as (w' & ? & ? & ? & ?).
    exists w'. auto.
  - exists w. split; [reflexivity|]. split; [assumption|].
    split; [apply no_step_back_refl|].
    intros HkT. rewrite targs_lookup in Hargs by exact HkT. discriminate.
Qed.

Lemma join_all_inv fuel ks w :
  stripes_inv w -> (length ps < fuel)%nat ->
  exists w', join_all fuel targs ks w = Ok w' /\ stripes_inv w' /\
    no_step_back w w' /\ (forall k, k ∈ ks -> (k < Z.to_nat T)%nat -> past k w').
Proof.
  intros Hinv Hfuel. revert w Hinv.
  induction ks as [|k ks IH]; intros w Hinv; cbn [join_all].
  - exists w. split; [reflexivity|]. split; [assumption|].
    split; [apply no_step_back_refl|].
    intros k Hk. inversion Hk.
  - destruct (match_thread_at_inv fuel k w Hinv Hfuel) as (w1 & -> & Hinv1 & Hm1 & Hp1).
    cbn [rbind]. destruct (IH w1 Hinv1) as (w2 & -> & Hinv2 & Hm2 & Hp2).
    exists w2. split; [reflexivity|]. split; [assumption|].
    split; [eauto using no_step_back_trans|].
    intros k' [->|Hin]%elem_of_cons HkT; eauto using past_no_step_back.
Qed.

Lemma stripes_inv_init :
  stripes_inv {| shared_matches := replicate (length ps) None;
                 loop_i := thread_index <$> targs;
                 scored := [] |}.
Proof.
  assert (forall k i, (thread_index <$> targs) !! k = Some i ->
            (k < Z.to_nat T)%nat /\ i = Z.of_nat k) as Hlk.
  { intros k i (args & -> & Hargs)%list_lookup_fmap_Some.
    apply targs_lookup_Some in Hargs as [Hk ->]. split; [exact Hk|].
    cbn [fill_thread_args thread_index]. apply int_of_long_id.
    unfold INT_MAX in *. lia. }
  assert (forall j, written T {| shared_matches := replicate (length ps) None;
                                 loop_i := thread_index <$> targs;
                                 scored := [] |} j = false) as Hwr.
  { intros j. unfold written, owner_i. cbn [loop_i].
    pose proof (Z.mod_pos_bound (Z.of_nat j) T ltac:(lia)).
    pose proof (Z.mod_le (Z.of_nat j) T ltac:(lia) ltac:(lia)).
    destruct (_ !! _) as [i|] eqn:Hi; cbn; apply Z.ltb_ge; [|lia].
    apply Hlk in Hi as [_ ->]. lia. }
  split; cbn [loop_i shared_matches scored].
  - now rewrite !length_fmap, length_seqZ.
  - apply length_replicate.
  - intros k i [_ ->]%Hlk. split; [lia|]. now rewrite Z.sub_diag, Z.mod_0_l by lia.
  - intros j p Hp. rewrite Hwr. apply lookup_replicate_2.
    eapply lookup_lt_Some, Hp.
  - constructor.
  - intros e. split; [intros He; inversion He|].
    intros (j & _ & Hw & _). rewrite Hwr in Hw. discriminate.
Qed.

(** Once every worker has left its loop, the buffer holds every
    candidate's score at the candidate's index, and every slot was scored
    exactly once, by the worker of its stripe. *)
Lemma stripes_inv_final w :
  stripes_inv w -> (forall k, (k < Z.to_nat T)%nat -> past k w) ->
  shared_matches w = (fun p => Some (calc p)) <$> ps /\
  scored w ≡ₚ (fun j => ev j) <$> seq 0 (length ps).
Proof.
  intros Hinv Hpast.
  assert (forall j, (j < length ps)%nat -> written T w j = true) as Hwr.
  { intros j Hj. unfold written, owner_i.
    pose proof (Z.mod_pos_bound (Z.of_nat j) T ltac:(lia)).
    destruct (Hpast (Z.to_nat (Z.of_nat j mod T)) ltac:(lia)) as (i & -> & Hi).
    cbn. apply Z.ltb_lt. lia. }
  split.
  - apply list_eq. intros j. rewrite list_lookup_fmap.
    destruct (ps !! j) as [p|] eqn:Hp; cbn.
    + rewrite (inv_m _ Hinv _ _ Hp), Hwr; [reflexivity|].
      eapply lookup_lt_Some, Hp.
    + apply lookup_ge_None. rewrite (inv_len_m _ Hinv).
      now apply lookup_ge_None.
  - apply NoDup_Permutation.
    + apply Hinv.
    + apply NoDup_fmap_2_strong; [|apply NoDup_seq].
      intros j1 j2 _ _ [= _ E]. lia.
    + intros e. rewrite (inv_scored _ Hinv), list_elem_of_fmap. split.
      * intros (j & Hj & _ & ->). exists j. split; [reflexivity|].
        apply elem_of_seq. lia.
      * intros (j & -> & Hj%elem_of_seq). exists j.
        split; [lia|]. split; [apply Hwr; lia | reflexivity].
Qed.

(** The loops of the workers, whatever the schedule: they all exit,
    every slot was scored once, and the buffer holds all the scores. *)
Lemma workers_finish sched :
  exists w,
    (let+ w := interleave sched targs
                 {| shared_matches := replicate (length ps) None;
                    loop_i := thread_index <$> targs;
                    scored := [] |} in
     let+ w := match_thread_at (S (length ps)) targs (Z.to_nat (T - 1)) w in
     join_all (S (length ps)) targs (seq 0 (Z.to_nat (T - 1))) w) = Ok w /\
    shared_matches w = (fun p => Some (calc p)) <$> ps /\
    scored w ≡ₚ (fun j => ev j) <$> seq 0 (length ps).
Proof.
  destruct (interleave_inv sched _ stripes_inv_init) as (w1 & -> & Hinv1 & Hm1).
  cbn [rbind].
  destruct (match_thread_at_inv (S (length ps)) (Z.to_nat (T - 1)) w1 Hinv1 ltac:(lia))
    as (w2 & -> & Hinv2 & Hm2 & Hp2).
  cbn [rbind].
  destruct (join_all_inv (S (length ps)) (seq 0 (Z.to_nat (T - 1))) w2 Hinv2 ltac:(lia))
    as (w3 & -> & Hinv3 & Hm3 & Hp3).
  assert (forall k, (k < Z.to_nat T)%nat -> past k w3) as Hpast.
  { intros k Hk. destruct (decide (k = Z.to_nat (T - 1))) as [->|Hne].
    - eapply past_no_step_back; [apply Hp2; lia | exact Hm3].
    - apply Hp3; [|exact Hk]. apply elem_of_seq. lia. }
  destruct (stripes_inv_final w3 Hinv3 Hpast) as [Hbuf Hsc].
  exists w3. split; [reflexivity|]. split; assumption.
Qed.

(** The worker phase when every creation and every join returns 0: the
    creations, the scoring of every slot once, the joins; and the buffer
    of all scores. *)
Lemma run_threads_spec env sched :
  threads_start env T ->
  exists sc,
    run_threads env sched T targs (replicate (length ps) None) =
      ((Ev_pthread_create <$> seqZ 0 (T - 1)) ++ sc ++
       (Ev_pthread_join <$> seqZ 0 (T - 1)),
       Ok ((fun p => Some (calc p)) <$> ps)) /\
    sc ≡ₚ (fun j => ev j) <$> seq 0 (length ps).
Proof.
  intros [Hc Hj]%threads_start_Forall.
  unfold run_threads. rewrite length_replicate.
  destruct (create_threads_outcome env (seqZ 0 (T - 1))) as [[_ ->] | [[] _]];
    [|exact Hc].
  destruct (join_threads_outcome env (seqZ 0 (T - 1))) as [[_ ->] | [[] _]];
    [|exact Hj].
  destruct (workers_finish sched) as (w & -> & Hbuf & Hsc).
  exists (scored w). split; [|exact Hsc].
  cbn. rewrite Hbuf, !app_nil_r. reflexivity.
Qed.

(** The worker phase when a creation or a join does not return 0: the
    call raises SystemCallError. *)
Lemma run_threads_fault env sched :
  ~ threads_start env T ->
  exists t,
    run_threads env sched T targs (replicate (length ps) None) =
      (t, Raise rb_eSystemCallError).
Proof.
  intros Hno. unfold run_threads. rewrite length_replicate.
  destruct (create_threads_outcome env (seqZ 0 (T - 1))) as [[Hc ->] | [_ [t ->]]];
    [|eexists; reflexivity].
  destruct (join_threads_outcome env (seqZ 0 (T - 1))) as [[Hj _] | [_ [t ->]]].
  { destruct Hno. apply threads_start_Forall. now split. }
  destruct (workers_finish sched) as (w & -> & _).
  eexists. reflexivity.
Qed.

End Workers.

Set Default Proof Using "Type".

(** ** One call, from its arguments to its result *)

Lemma runs_bind {A B} (m : M A) (f : A -> M B) t1 x t2 y :
  runs m t1 x -> runs (f x) t2 y -> runs (bind m f) (t1 ++ t2) y.
Proof. unfold runs, bind. intros -> ->. reflexivity. Qed.

Lemma runs_lift {A} (r : result A) x : r = Ok x -> runs (lift r) [] x.
Proof. intros ->. reflexivity. Qed.

Lemma runs_ret {A} (x : A) : runs (ret x) [] x.
Proof. reflexivity. Qed.

Lemma runs_emit e : runs (emit e) [e] tt.
Proof. reflexivity. Qed.

Lemma runs_malloc env site size nmemb :
  malloc_fails env site size nmemb = false ->
  runs (malloc env site size nmemb) [Ev_malloc nmemb] tt.
Proof. intros H. unfold malloc. rewrite H. apply runs_emit. Qed.

Lemma malloc_raises env site size nmemb :
  malloc_fails env site size nmemb = true ->
  malloc env site size nmemb = ([], Raise rb_eNoMemError).
Proof. intros H. unfold malloc. now rewrite H. Qed.

Lemma bind_ends {A B} (m : M A) (f : A -> M B) t1 x t2 (r : result B) :
  runs m t1 x -> f x = (t2, r) -> bind m f = (t1 ++ t2, r).
Proof. unfold runs, bind. intros -> ->. reflexivity. Qed.

Lemma bind_raises {A B} (m : M A) (f : A -> M B) t e :
  m = (t, Raise e) -> bind m f = (t, Raise e).
Proof. intros ->. reflexivity. Qed.

Lemma ends_intro {A} (m : M A) t r :
  (exists t' r', m = (t', r') /\ t' = t /\ r' = r) -> m = (t, r).
Proof. intros (t' & r' & -> & -> & ->). reflexivity. Qed.

Lemma read_all_fmap (ms : list match_t) : read_all (Some <$> ms) = Some ms.
Proof.
  induction ms as [|m ms IH]; cbn; [reflexivity|]. cbn in IH. now rewrite IH.
Qed.

Lemma collect_take_matches ms limit :
  collect (Some <$> ms) limit = Ok (take_matches ms limit).
Proof.
  revert limit; induction ms as [|m ms IH]; intros limit;
    cbn [fmap list_fmap collect take_matches]; [reflexivity|].
  destruct (limit >? 0); [|reflexivity].
  destruct (Qltb 0 (score m)); [|apply IH].
  change (list_fmap _ _ Some ms) with (Some <$> ms).
  now rewrite IH.
Qed.

Lemma runs_qsort_buffer cmp ms :
  runs (qsort_buffer cmp (Some <$> ms)) [Ev_qsort] (Some <$> qsort cmp ms).
Proof. unfold qsort_buffer. rewrite read_all_fmap. reflexivity. Qed.

Lemma option_from_hash_opt key options :
  match options with Qnil | RHash _ => true | _ => false end = true ->
  CommandT_option_from_hash key options = Ok (opt options key).
Proof. destruct options; cbn; congruence. Qed.

Lemma runs_num_option v (d : Z) :
  match v with Qnil => true | Integer z => in_long z | _ => false end = true ->
  runs (if NIL_P v then ret d else lift (NUM2LONG v)) []
       (match v with Integer z => z | _ => d end).
Proof.
  destruct v; cbn; try discriminate; [reflexivity|].
  unfold in_long. intros ->. reflexivity.
Qed.

(** The steps of a call up to the fetch of the candidates. *)
Ltac enter_call Hopts Hscanner :=
  unfold CommandTMatcher_sorted_matches_for;
  eapply bind_ends; [apply runs_lift; reflexivity|]; cbv beta iota; cbn [NIL_P];
  do 6 (eapply bind_ends;
        [apply runs_lift, option_from_hash_opt, Hopts|]; cbv beta);
  eapply bind_ends; [apply runs_lift; reflexivity|]; cbv beta zeta;
  rewrite Hscanner.

Lemma no_fault_dec env options paths :
  no_fault env options paths \/ ~ no_fault env options paths.
Proof.
  unfold no_fault.
  destruct (malloc_fails env 0 _ _); [right; intros (? & _); discriminate|].
  destruct (malloc_fails env 1 _ _); [right; intros (_ & ? & _); discriminate|].
  destruct (malloc_fails env 2 _ _); [right; intros (_ & _ & ? & _); discriminate|].
  destruct (threads_start_dec env (effective_threads options paths));
    [left | right]; tauto.
Qed.

Lemma call_ok_workers_ok options paths :
  call_ok options paths = true -> workers_ok options paths = true.
Proof.
  unfold call_ok, workers_ok, options_ok. intros H.
  repeat (apply andb_true_iff in H as [H ?]).
  repeat (apply andb_true_iff; split); assumption.
Qed.

(** A call in which nothing fails: its trace and its result. *)
Lemma sorted_matches_for_spec env sched abbrev options self paths :
  rb_iv_get self "@scanner" = Scanner paths ->
  call_ok options paths = true ->
  no_fault env options paths ->
  let T := effective_threads options paths in
  exists sc,
    CommandTMatcher_sorted_matches_for env sched [RString abbrev; options] self =
      ([Ev_paths; Ev_malloc (Z.of_nat (length paths)); Ev_malloc T; Ev_malloc T] ++
       (Ev_pthread_create <$> seqZ 0 (T - 1)) ++ sc ++
       (Ev_pthread_join <$> seqZ 0 (T - 1)) ++ [Ev_free] ++
       (if sort_enabled options then [Ev_qsort] else []) ++ [Ev_free],
       Ok (take_matches (ranked self options abbrev paths)
             (start_limit options paths))) /\
    sc ≡ₚ (fun j => Ev_calculate_match (Z.of_nat j mod T) (Z.of_nat j))
            <$> seq 0 (length paths).
Proof.
  intros Hscanner Hok (M0 & M1 & M2 & Hstart) T.
  unfold call_ok in Hok.
  apply andb_true_iff in Hok as [Hok HTmax]. apply andb_true_iff in Hok as [Hok HTmin].
  apply andb_true_iff in Hok as [Hok Hthreads]. apply andb_true_iff in Hok as [Hopts Hlimit].
  apply Z.leb_le in HTmin, HTmax. fold T in HTmin, HTmax, M1, M2, Hstart.
  destruct (run_threads_spec paths T (opt options "case_sensitive")
              (normalized options abbrev)
              (rb_iv_get self "@always_show_dot_files")
              (rb_iv_get self "@never_show_dot_files")
              (opt options "recurse") (conj HTmin HTmax) env sched Hstart)
    as (sc & Hrun & Hsc).
  exists sc. split; [|exact Hsc].
  enough (exists tr out,
    runs (CommandTMatcher_sorted_matches_for env sched [RString abbrev; options] self)
      tr out /\
    tr = [Ev_paths; Ev_malloc (Z.of_nat (length paths)); Ev_malloc T; Ev_malloc T] ++
       (Ev_pthread_create <$> seqZ 0 (T - 1)) ++ sc ++
       (Ev_pthread_join <$> seqZ 0 (T - 1)) ++ [Ev_free] ++
       (if sort_enabled options then [Ev_qsort] else []) ++ [Ev_free] /\
    out = take_matches (ranked self options abbrev paths) (start_limit options paths))
    as (tr & out & Hr & -> & ->) by exact Hr.
  eexists _, _. split.
  - unfold CommandTMatcher_sorted_matches_for.
    eapply runs_bind; [apply runs_lift; reflexivity|]. cbv beta iota. cbn [NIL_P].
    do 6 (eapply runs_bind; [apply runs_lift, option_from_hash_opt, Hopts|]; cbv beta).
    eapply runs_bind; [apply runs_lift; reflexivity|]. cbv beta zeta.
    rewrite Hscanner.
    eapply runs_bind; [reflexivity|]. cbv beta.
    eapply runs_bind; [apply runs_malloc, M0|]. cbv beta.
    eapply runs_bind; [apply runs_num_option, Hthreads|]. cbv beta.
    change (if Z.of_nat (length paths) <? THREAD_THRESHOLD then 1
            else match opt options "threads" with Integer z => z | _ => 1 end)
      with T.
    eapply runs_bind; [apply runs_malloc, M1|]. cbv beta.
    eapply runs_bind; [apply runs_malloc, M2|]. cbv beta.
    eapply runs_bind; [exact Hrun|]. cbv beta.
    eapply runs_bind; [apply runs_emit|]. cbv beta.
    change (if is_Qtrue (opt options "ignore_spaces")
            then delete_spaces
                   (if is_Qtrue (opt options "case_sensitive")
                    then abbrev else downcase abbrev)
            else if is_Qtrue (opt options "case_sensitive")
                 then abbrev else downcase abbrev)
      with (normalized options abbrev).
    replace ((fun p => Some (calculate_match p (normalized options abbrev)
                (is_Qtrue (opt options "case_sensitive"))
                (rb_iv_get self "@always_show_dot_files")
                (rb_iv_get self "@never_show_dot_files")
                (opt options "recurse"))) <$> paths)
      with (Some <$> score_all self options abbrev paths)
      by (unfold score_all; rewrite <- list_fmap_compose; reflexivity).
    eapply (runs_bind _ _ (if sort_enabled options then [Ev_qsort] else [])
              (Some <$> ranked self options abbrev paths)).
    { unfold ranked. fold (sort_enabled options).
      fold (alphabetic (normalized options abbrev)).
      destruct (sort_enabled options); [|apply runs_ret].
      destruct (alphabetic (normalized options abbrev)); apply runs_qsort_buffer. }
    eapply runs_bind; [apply runs_num_option, Hlimit|]. cbv beta.
    eapply runs_bind; [apply runs_lift, collect_take_matches|]. cbv beta.
    eapply runs_bind; [apply runs_emit|]. apply runs_ret.
  - split; [|reflexivity].
    cbn [app]. rewrite ?app_nil_r, <- ?app_assoc. reflexivity.
Qed.

(** A call in which something fails raises: NoMemError at the first
    allocation that is refused, SystemCallError when the allocations are
    granted and a worker cannot be created or joined. No result is
    returned. *)
Lemma sorted_matches_for_fault env sched abbrev options self paths :
  rb_iv_get self "@scanner" = Scanner paths ->
  workers_ok options paths = true ->
  ~ no_fault env options paths ->
  exists t,
    CommandTMatcher_sorted_matches_for env sched [RString abbrev; options] self =
      (t, Raise (fault_of env options paths)).
Proof.
  intros Hscanner Hok Hno. unfold fault_of.
  set (T := effective_threads options paths) in *.
  unfold workers_ok in Hok.
  apply andb_true_iff in Hok as [Hok HTmax]. apply andb_true_iff in Hok as [Hok HTmin].
  apply andb_true_iff in Hok as [Hopts Hthreads].
  apply Z.leb_le in HTmin, HTmax. fold T in HTmin, HTmax.
  destruct (malloc_fails env 0 sizeof_match_t (Z.of_nat (length paths))) eqn:M0.
  { eexists. enter_call Hopts Hscanner.
    eapply bind_ends; [reflexivity|]. cbv beta.
    apply bind_raises, malloc_raises, M0. }
  destruct (malloc_fails env 1 sizeof_pthread_t T) eqn:M1.
  { eexists. enter_call Hopts Hscanner.
    eapply bind_ends; [reflexivity|]. cbv beta.
    eapply bind_ends; [apply runs_malloc, M0|]. cbv beta.
    eapply bind_ends; [apply runs_num_option, Hthreads|]. cbv beta.
    apply bind_raises, malloc_raises, M1. }
  destruct (malloc_fails env 2 sizeof_thread_args_t T) eqn:M2.
  { eexists. enter_call Hopts Hscanner.
    eapply bind_ends; [reflexivity|]. cbv beta.
    eapply bind_ends; [apply runs_malloc, M0|]. cbv beta.
    eapply bind_ends; [apply runs_num_option, Hthreads|]. cbv beta.
    eapply bind_ends; [apply runs_malloc, M1|]. cbv beta.
    apply bind_raises, malloc_raises, M2. }
  destruct (threads_start_dec env T) as [Hst|Hst].
  { destruct Hno. unfold no_fault. fold T. auto. }
  destruct (run_threads_fault paths T (opt options "case_sensitive")
              (normalized options abbrev)
              (rb_iv_get self "@always_show_dot_files")
              (rb_iv_get self "@never_show_dot_files")
              (opt options "recurse") (conj HTmin HTmax) env sched Hst)
    as (t & Hrun).
  eexists. enter_call Hopts Hscanner.
  eapply bind_ends; [reflexivity|]. cbv beta.
  eapply bind_ends; [apply runs_malloc, M0|]. cbv beta.
  eapply bind_ends; [apply runs_num_option, Hthreads|]. cbv beta.
  eapply bind_ends; [apply runs_malloc, M1|]. cbv beta.
  eapply bind_ends; [apply runs_malloc, M2|]. cbv beta.
  apply bind_raises. exact Hrun.
Qed.

(** ** The result list *)

Lemma take_matches_hits ms limit :
  take_matches ms limit = take (Z.to_nat limit) (hits ms).
Proof.
  unfold hits. revert limit; induction ms as [|m ms IH]; intros limit;
    cbn [take_matches].
  - now destruct (Z.to_nat limit).
  - rewrite filter_cons. destruct (Z.gtb_spec limit 0) as [Hl|Hl].
    + destruct (Qltb 0 (score m)) eqn:Hm.
      * apply Qltb_lt in Hm. rewrite decide_True by exact Hm.
        rewrite IH. replace (Z.to_nat limit) with (S (Z.to_nat (limit - 1))) by lia.
        reflexivity.
      * apply Qltb_ge in Hm. rewrite decide_False by (apply Qle_not_lt, Hm).
        apply IH.
    + replace (Z.to_nat limit) with 0%nat by lia. now rewrite take_0.
Qed.

Lemma StronglySorted_sublist {A} (R : relation A) l1 l2 :
  l1 `sublist_of` l2 -> StronglySorted R l2 -> StronglySorted R l1.
Proof.
  intros Hsub Hs. revert l1 Hsub.
  induction Hs as [|x l2 Hs IH Hx]; intros l1 Hsub.
  - apply sublist_nil_r in Hsub as ->. constructor.
  - apply sublist_cons_r in Hsub as [Hsub | (l1' & -> & Hsub)]; [now apply IH|].
    constructor; [now apply IH|].
    rewrite Forall_forall in *. intros y Hy. apply Hx.
    eapply sublist_subseteq; eassumption.
Qed.

Lemma StronglySorted_and_Forall {A} (R : relation A) (P : A -> Prop) l :
  StronglySorted R l -> Forall P l ->
  StronglySorted (fun a b => R a b /\ P a /\ P b) l.
Proof.
  induction 1 as [|x l Hs IH Hx]; intros HP; [constructor|].
  apply Forall_cons in HP as [Px Pl].
  constructor; [now apply IH|].
  rewrite Forall_forall in *. auto.
Qed.

Lemma alpha_le_alpha_rec p q : alpha_le p q <-> alpha_rec p q <= 0.
Proof. unfold alpha_le. now rewrite cmp_alpha_alpha_rec. Qed.

Lemma cmp_alpha_alpha_ordered a b :
  cmp_alpha a b <= 0 -> alpha_ordered (path a) (path b).
Proof.
  intros H. split.
  - apply alpha_le_alpha_rec. now rewrite <- cmp_alpha_alpha_rec.
  - intros Ha Hb. rewrite <- (alpha_rec_bytewise _ _ Ha Hb), <- cmp_alpha_alpha_rec.
    intros Hgt%Z.compare_gt_iff. lia.
Qed.

(** A call without options is the call with nil options. *)
Lemma sorted_matches_for_one_argument env sched abbrev self :
  CommandTMatcher_sorted_matches_for env sched [abbrev] self =
  CommandTMatcher_sorted_matches_for env sched [abbrev; Qnil] self.
Proof. reflexivity. Qed.

(** A call in which nothing fails returns the first [limit] hits of the
    ranked buffer. *)
Lemma sorted_matches_for_returns env sched abbrev options self paths :
  rb_iv_get self "@scanner" = Scanner paths ->
  call_ok options paths = true ->
  no_fault env options paths ->
  snd (CommandTMatcher_sorted_matches_for env sched [RString abbrev; options] self) =
  Ok (take (Z.to_nat (start_limit options paths))
        (hits (ranked self options abbrev paths))).
Proof.
  intros Hs Hok Hnf.
  destruct (sorted_matches_for_spec env sched abbrev options self paths Hs Hok Hnf)
    as (sc & -> & _).
  cbn [snd]. now rewrite take_matches_hits.
Qed.

(** A call that returns was spared every failure, and what it returns is
    the first [limit] hits of the ranked buffer. *)
Lemma sorted_matches_for_returned env sched abbrev options self paths out :
  rb_iv_get self "@scanner" = Scanner paths ->
  call_ok options paths = true ->
  snd (CommandTMatcher_sorted_matches_for env sched [RString abbrev; options] self)
    = Ok out ->
  out = take (Z.to_nat (start_limit options paths))
          (hits (ranked self options abbrev paths)) /\
  no_fault env options paths.
Proof.
  intros Hs Hok Hout.
  destruct (no_fault_dec env options paths) as [Hnf|Hnf].
  - rewrite (sorted_matches_for_returns _ _ _ _ _ _ Hs Hok Hnf) in Hout.
    split; [congruence | exact Hnf].
  - destruct (sorted_matches_for_fault env sched abbrev options self paths Hs
                (call_ok_workers_ok _ _ Hok) Hnf) as (t & E).
    rewrite E in Hout. discriminate.
Qed.

Lemma ranked_ext self options1 options2 abbrev paths :
  (forall key, key <> "threads"%string -> key <> "limit"%string ->
     opt options1 key = opt options2 key) ->
  ranked self options1 abbrev paths = ranked self options2 abbrev paths.
Proof.
  intros Hsame.
  unfold ranked, score_all, score_of, sort_enabled, normalized.
  rewrite !(Hsame "case_sensitive"%string), !(Hsame "ignore_spaces"%string),
    !(Hsame "sort"%string), !(Hsame "recurse"%string) by discriminate.
  reflexivity.
Qed.

Lemma hits_score_all self options abbrev paths :
  hits (score_all self options abbrev paths) =
  filter (fun p => (0 < score_of self options abbrev p)%Q) paths.
Proof.
  unfold hits, score_all.
  induction paths as [|p paths IH]; [reflexivity|].
  rewrite fmap_cons, !filter_cons. cbn [score].
  destruct (decide (0 < score_of self options abbrev p)%Q); [|exact IH].
  rewrite fmap_cons. cbn [path]. now rewrite IH.
Qed.

Lemma score_all_scores self options abbrev paths :
  Forall (fun m => score m = score_of self options abbrev (path m) /\
                   path m ∈ paths)
    (score_all self options abbrev paths).
Proof.
  unfold score_all. rewrite Forall_fmap. apply Forall_forall.
  intros p Hp. cbn. auto.
Qed.

Lemma length_hits ms : (length (hits ms) <= length ms)%nat.
Proof. unfold hits. rewrite length_fmap. apply length_filter. Qed.

(** ** The claims *)

(** C1. For a fixed candidate set and query, two calls that differ at
    most in the worker count asked for, in how the scheduler interleaves
    the workers and in what the allocator and the thread library answer
    return the same sequence whenever both return; and both return when
    nothing fails in either. *)
Theorem worker_count_and_schedule_do_not_change_the_result
    env1 env2 sched1 sched2 abbrev options1 options2 self paths :
  rb_iv_get self "@scanner" = Scanner paths ->
  call_ok options1 paths = true ->
  call_ok options2 paths = true ->
  (forall key, key <> "threads"%string -> opt options1 key = opt options2 key) ->
  (no_fault env1 options1 paths -> no_fault env2 options2 paths ->
   exists out,
     snd (CommandTMatcher_sorted_matches_for env1 sched1
            [RString abbrev; options1] self) = Ok out /\
     snd (CommandTMatcher_sorted_matches_for env2 sched2
            [RString abbrev; options2] self) = Ok out) /\
  (forall out1 out2,
     snd (CommandTMatcher_sorted_matches_for env1 sched1
            [RString abbrev; options1] self) = Ok out1 ->
     snd (CommandTMatcher_sorted_matches_for env2 sched2
            [RString abbrev; options2] self) = Ok out2 ->
     out1 = out2).
Proof.
  intros Hs Hok1 Hok2 Hsame.
  assert (take (Z.to_nat (start_limit options1 paths))
            (hits (ranked self options1 abbrev paths)) =
          take (Z.to_nat (start_limit options2 paths))
            (hits (ranked self options2 abbrev paths))) as Heq.
  { rewrite (ranked_ext self options1 options2) by auto.
    unfold start_limit, limit_option.
    rewrite !(Hsame "limit"%string) by discriminate. reflexivity. }
  split.
  - intros Hnf1 Hnf2.
    rewrite (sorted_matches_for_returns env1 sched1 _ _ _ _ Hs Hok1 Hnf1).
    rewrite (sorted_matches_for_returns env2 sched2 _ _ _ _ Hs Hok2 Hnf2).
    eexists. split; [reflexivity|]. now rewrite Heq.
  - intros out1 out2 H1 H2.
    apply (sorted_matches_for_returned _ _ _ _ _ _ _ Hs Hok1) in H1 as [-> _].
    apply (sorted_matches_for_returned _ _ _ _ _ _ _ Hs Hok2) in H2 as [-> _].
    exact Heq.
Qed.

(** C4. With [T >= 1] workers, worker [k] taking the slots [k], [k + T],
    [k + 2T], ..., whatever the schedule: when the [T - 1] workers can be
    created and joined, every candidate is scored exactly once, by the
    worker of its stripe, and the score lands in the slot of the
    candidate's index; and the worker phase hands over a buffer only in
    that case, otherwise it raises SystemCallError. *)
Theorem striped_workers_score_every_slot_once
    env sched T case_sensitive paths abbrev always never recurse :
  1 <= T <= INT_MAX ->
  let phase :=
    run_threads env sched T
      (fill_thread_args T case_sensitive (Z.of_nat (length paths)) paths
         abbrev always never recurse <$> seqZ 0 T)
      (replicate (length paths) None) in
  (threads_start env T ->
   exists sc,
     phase =
       ((Ev_pthread_create <$> seqZ 0 (T - 1)) ++ sc ++
        (Ev_pthread_join <$> seqZ 0 (T - 1)),
        Ok ((fun p => Some (calculate_match p abbrev (is_Qtrue case_sensitive)
                              always never recurse)) <$> paths)) /\
     sc ≡ₚ (fun j => Ev_calculate_match (Z.of_nat j mod T) (Z.of_nat j))
             <$> seq 0 (length paths)) /\
  (~ threads_start env T ->
   exists t, phase = (t, Raise rb_eSystemCallError)) /\
  (forall t buf, phase = (t, Ok buf) ->
     threads_start env T /\
     buf = (fun p => Some (calculate_match p abbrev (is_Qtrue case_sensitive)
                             always never recurse)) <$> paths /\
     exists sc,
       t = (Ev_pthread_create <$> seqZ 0 (T - 1)) ++ sc ++
           (Ev_pthread_join <$> seqZ 0 (T - 1)) /\
       sc ≡ₚ (fun j => Ev_calculate_match (Z.of_nat j mod T) (Z.of_nat j))
               <$> seq 0 (length paths)).
Proof.
  intros HT phase. split; [|split].
  - intros Hst. now apply run_threads_spec.
  - intros Hst. now apply run_threads_fault.
  - intros t buf Hrun. destruct (threads_start_dec env T) as [Hst|Hst].
    + destruct (run_threads_spec paths T case_sensitive abbrev always never
                  recurse HT env sched Hst) as (sc & E & Hsc).
      fold phase in E. rewrite E in Hrun. injection Hrun as <- <-.
      split; [exact Hst|]. split; [reflexivity|]. now exists sc.
    + destruct (run_threads_fault paths T case_sensitive abbrev always never
                  recurse HT env sched Hst) as (t' & E).
      fold phase in E. rewrite E in Hrun. discriminate.
Qed.

(** C7. Below 1000 candidates the call runs with one worker whatever
    count was asked for; from 1000 candidates on it runs with the count
    asked for (1 when none was). In every call that returns, the count in
    use [T] is the size of the two arrays allocated for the workers,
    [T - 1] workers are created and joined, and the stripes are [T]
    apart; and a call returns when nothing fails. *)
Theorem thread_threshold_forces_one_worker env sched abbrev options self paths :
  rb_iv_get self "@scanner" = Scanner paths ->
  call_ok options paths = true ->
  exists T,
    (Z.of_nat (length paths) < 1000 -> T = 1) /\
    (1000 <= Z.of_nat (length paths) -> T = requested_threads options) /\
    (no_fault env options paths ->
     exists out,
       snd (CommandTMatcher_sorted_matches_for env sched
              [RString abbrev; options] self) = Ok out) /\
    (forall out,
       snd (CommandTMatcher_sorted_matches_for env sched
              [RString abbrev; options] self) = Ok out ->
       exists sc rest,
         fst (CommandTMatcher_sorted_matches_for env sched
                [RString abbrev; options] self) =
           [Ev_paths; Ev_malloc (Z.of_nat (length paths)); Ev_malloc T;
            Ev_malloc T] ++
           (Ev_pthread_create <$> seqZ 0 (T - 1)) ++ sc ++
           (Ev_pthread_join <$> seqZ 0 (T - 1)) ++ rest /\
         sc ≡ₚ (fun j => Ev_calculate_match (Z.of_nat j mod T) (Z.of_nat j))
                 <$> seq 0 (length paths)).
Proof.
  intros Hs Hok.
  exists (effective_threads options paths).
  split; [|split; [|split]].
  - intros Hn. unfold effective_threads, THREAD_THRESHOLD.
    destruct (Z.ltb_spec (Z.of_nat (length paths)) 1000); [reflexivity | lia].
  - intros Hn. unfold effective_threads, THREAD_THRESHOLD.
    destruct (Z.ltb_spec (Z.of_nat (length paths)) 1000); [lia | reflexivity].
  - intros Hnf. eexists. exact (sorted_matches_for_returns _ _ _ _ _ _ Hs Hok Hnf).
  - intros out [_ Hnf]%(sorted_matches_for_returned _ _ _ _ _ _ _ Hs Hok).
    destruct (sorted_matches_for_spec env sched abbrev options self paths Hs Hok Hnf)
      as (sc & -> & Hsc).
    exists sc. eexists. split; [reflexivity | exact Hsc].
Qed.

(** C8. Construction with a nil scanner, and a ranking call with a nil
    abbreviation, raise ArgumentError at once: the object is left as it
    was, and the trace of the call is empty (no paths fetched, nothing
    allocated, no worker created, nothing scored). *)
Theorem nil_arguments_raise_before_any_work env sched options self :
  CommandTMatcher_initialize [Qnil] self
    = (self, Raise (rb_eArgError "nil scanner")) /\
  CommandTMatcher_initialize [Qnil; options] self
    = (self, Raise (rb_eArgError "nil scanner")) /\
  CommandTMatcher_sorted_matches_for env sched [Qnil] self
    = ([], Raise (rb_eArgError "nil abbrev")) /\
  CommandTMatcher_sorted_matches_for env sched [Qnil; options] self
    = ([], Raise (rb_eArgError "nil abbrev")).
Proof. repeat split; reflexivity. Qed.

(** C10. A negative limit collects nothing: a call that returns, returns
    the empty sequence; and the call returns when nothing fails. *)
Theorem negative_limit_returns_nothing env sched abbrev options self paths l :
  rb_iv_get self "@scanner" = Scanner paths ->
  call_ok options paths = true ->
  opt options "limit" = Integer l -> l < 0 ->
  (no_fault env options paths ->
   snd (CommandTMatcher_sorted_matches_for env sched [RString abbrev; options] self)
     = Ok []) /\
  (forall out,
     snd (CommandTMatcher_sorted_matches_for env sched [RString abbrev; options] self)
       = Ok out ->
     out = []).
Proof.
  intros Hs Hok Hl Hneg.
  assert (take (Z.to_nat (start_limit options paths))
            (hits (ranked self options abbrev paths)) = []) as Hnone.
  { unfold start_limit, limit_option. rewrite Hl.
    destruct (Z.eqb_spec l 0); [lia|].
    replace (Z.to_nat l) with 0%nat by lia. now rewrite take_0. }
  split.
  - intros Hnf. rewrite (sorted_matches_for_returns _ _ _ _ _ _ Hs Hok Hnf).
    now rewrite Hnone.
  - intros out [-> _]%(sorted_matches_for_returned _ _ _ _ _ _ _ Hs Hok).
    exact Hnone.
Qed.

(** X1. On paths without a NUL byte, the sign of [cmp_alpha] is the
    alphabetic rule of the specification: byte-wise up to the shorter
    length, the first unequal byte decides, a prefix sorts first. *)
Theorem cmp_alpha_refines_the_bytewise_rule (a b : match_t) :
  nul_free (path a) = true -> nul_free (path b) = true ->
  (cmp_alpha a b ?= 0) = bytewise_compare (path a) (path b).
Proof. intros Ha Hb. rewrite cmp_alpha_alpha_rec. now apply alpha_rec_bytewise. Qed.

(** X2. Both comparison functions are what [qsort] requires: swapping the
    arguments flips the sign, and "not after" is transitive. *)
Theorem comparators_are_consistent : consistent cmp_alpha /\ consistent cmp_score.
Proof. split; [apply cmp_alpha_consistent | apply cmp_score_consistent]. Qed.

(** X3. With sorting disabled, a call that returns, returns the
    candidates of positive score in the order the scanner gave them, cut
    at the limit; and the call returns when nothing fails. *)
Theorem unsorted_result_keeps_enumeration_order
    env sched abbrev options self paths :
  rb_iv_get self "@scanner" = Scanner paths ->
  call_ok options paths = true ->
  sort_enabled options = false ->
  (no_fault env options paths ->
   exists out,
     snd (CommandTMatcher_sorted_matches_for env sched
            [RString abbrev; options] self) = Ok out) /\
  (forall out,
     snd (CommandTMatcher_sorted_matches_for env sched
            [RString abbrev; options] self) = Ok out ->
     out = take (Z.to_nat (start_limit options paths))
             (filter (fun p => (0 < score_of self options abbrev p)%Q) paths)).
Proof.
  intros Hs Hok Hsort. split.
  - intros Hnf. eexists. exact (sorted_matches_for_returns _ _ _ _ _ _ Hs Hok Hnf).
  - intros out [-> _]%(sorted_matches_for_returned _ _ _ _ _ _ _ Hs Hok).
    unfold ranked. rewrite Hsort. now rewrite hits_score_all.
Qed.

(** ** Calls that do not return a result *)

Lemma interleave_no_workers sched w : interleave sched [] w = Ok w.
Proof. induction sched as [|k sched IH]; [reflexivity | exact IH]. Qed.

Lemma run_threads_no_workers env sched matches :
  run_threads env sched 0 [] matches = ([], Ok matches).
Proof.
  unfold run_threads. cbn [fmap list_fmap]. rewrite interleave_no_workers.
  reflexivity.
Qed.

(** A request of [size * t] bytes for a negative [int] [t] wraps to more
    than any allocator grants. *)
Lemma malloc_fails_negative env site size t :
  0 < size <= 2 ^ 32 -> - 2 ^ 31 <= t < 0 ->
  malloc_fails env site size t = true.
Proof.
  intros Hsize Ht. unfold malloc_fails, PTRDIFF_MAX, SIZE_MAX.
  apply orb_true_iff. left. apply Z.ltb_lt.
  replace (size * t) with (size * t + 2 ^ 64 + (-1) * (2 ^ 64 - 1 + 1)) by lia.
  rewrite Z.mod_add by lia. rewrite Z.mod_small by nia. nia.
Qed.

Lemma read_all_unwritten n : (0 < n)%nat -> read_all (replicate n None) = None.
Proof. destruct n; [lia | reflexivity]. Qed.

(** X4. A call with no argument or with more than two raises
    ArgumentError, in the constructor and in the ranking call, before
    anything else is done: the object is left as it was and the trace of
    the call is empty. *)
Theorem wrong_number_of_arguments_raises env sched argv self :
  length argv <> 1%nat -> length argv <> 2%nat ->
  CommandTMatcher_initialize argv self
    = (self, Raise (rb_eArgError "wrong number of arguments")) /\
  CommandTMatcher_sorted_matches_for env sched argv self
    = ([], Raise (rb_eArgError "wrong number of arguments")).
Proof.
  intros H1 H2. destruct argv as [|x [|y [|z argv]]]; cbn in H1, H2;
    try congruence; split; reflexivity.
Qed.

(** X5. A ranking call on an object whose [@scanner] is nil (it was never
    constructed) raises NoMethodError when it asks for the paths: nothing
    was allocated and nothing scored. *)
Theorem missing_scanner_raises env sched abbrev options self :
  options_ok options = true ->
  rb_iv_get self "@scanner" = Qnil ->
  CommandTMatcher_sorted_matches_for env sched [RString abbrev; options] self
    = ([], Raise rb_eNoMethodError).
Proof.
  intros Hopts Hscanner. apply ends_intro. eexists _, _. split.
  - enter_call Hopts Hscanner. reflexivity.
  - split; reflexivity.
Qed.

(** X6. A [threads] option that [NUM2LONG] refuses (not an integer, or
    one that does not fit a [long]) makes the call raise after the score
    buffer was allocated and before any candidate is scored; the buffer
    is not released. When the buffer itself is refused, the call has
    raised NoMemError before the option is read. *)
Theorem bad_threads_option_raises_after_allocation
    env sched abbrev options self paths e :
  rb_iv_get self "@scanner" = Scanner paths ->
  options_ok options = true ->
  NIL_P (opt options "threads") = false ->
  NUM2LONG (opt options "threads") = Raise e ->
  CommandTMatcher_sorted_matches_for env sched [RString abbrev; options] self
    = if malloc_fails env 0 sizeof_match_t (Z.of_nat (length paths))
      then ([Ev_paths], Raise rb_eNoMemError)
      else ([Ev_paths; Ev_malloc (Z.of_nat (length paths))], Raise e).
Proof.
  intros Hscanner Hopts Hnil He.
  destruct (malloc_fails env 0 _ _) eqn:M0; apply ends_intro; eexists _, _; split.
  - enter_call Hopts Hscanner.
    eapply bind_ends; [reflexivity|]. cbv beta.
    apply bind_raises, malloc_raises, M0.
  - split; reflexivity.
  - enter_call Hopts Hscanner.
    eapply bind_ends; [reflexivity|]. cbv beta.
    eapply bind_ends; [apply runs_malloc, M0|]. cbv beta.
    rewrite Hnil, He. reflexivity.
  - split; reflexivity.
Qed.

(** X7. With at least 1000 candidates, a negative worker count (within
    [int] range) makes the allocation of the workers' array fail: the
    call raises NoMemError after the score buffer was allocated, scores
    nothing, and does not release the buffer. When the buffer itself is
    refused, the call has raised NoMemError before that. *)
Theorem negative_worker_count_raises env sched abbrev options self paths t :
  rb_iv_get self "@scanner" = Scanner paths ->
  options_ok options = true ->
  opt options "threads" = Integer t -> - 2 ^ 31 <= t < 0 ->
  1000 <= Z.of_nat (length paths) ->
  CommandTMatcher_sorted_matches_for env sched [RString abbrev; options] self
    = if malloc_fails env 0 sizeof_match_t (Z.of_nat (length paths))
      then ([Ev_paths], Raise rb_eNoMemError)
      else ([Ev_paths; Ev_malloc (Z.of_nat (length paths))], Raise rb_eNoMemError).
Proof.
  intros Hscanner Hopts Ht Hneg Hn.
  destruct (malloc_fails env 0 _ _) eqn:M0; apply ends_intro; eexists _, _; split.
  - enter_call Hopts Hscanner.
    eapply bind_ends; [reflexivity|]. cbv beta.
    apply bind_raises, malloc_raises, M0.
  - split; reflexivity.
  - enter_call Hopts Hscanner.
    eapply bind_ends; [reflexivity|]. cbv beta.
    eapply bind_ends; [apply runs_malloc, M0|]. cbv beta.
    rewrite Ht. cbn [NIL_P].
    eapply bind_ends.
    { apply runs_lift. unfold NUM2LONG, LONG_MAX, LONG_MIN.
      destruct (Z.leb_spec (- 2 ^ 63) t); [|lia].
      destruct (Z.leb_spec t (2 ^ 63 - 1)); [reflexivity | lia]. }
    cbv beta. unfold THREAD_THRESHOLD.
    destruct (Z.ltb_spec (Z.of_nat (length paths)) 1000); [lia|].
    apply bind_raises, malloc_raises, malloc_fails_negative; [|exact Hneg].
    unfold sizeof_pthread_t. lia.
  - split; reflexivity.
Qed.

(** X8. With at least 1000 candidates and sorting on, a worker count of
    0 starts no worker and runs no stripe: no candidate is scored, and
    [qsort] is handed a buffer nobody wrote (undefined behaviour). That
    is when [malloc] grants the score buffer and returns a non-null
    pointer for each of the two requests of 0 bytes; at the first of the
    three it refuses, the call raises NoMemError. *)
Theorem zero_worker_count_scores_nothing env sched abbrev options self paths :
  rb_iv_get self "@scanner" = Scanner paths ->
  options_ok options = true ->
  opt options "threads" = Integer 0 ->
  sort_enabled options = true ->
  1000 <= Z.of_nat (length paths) ->
  CommandTMatcher_sorted_matches_for env sched [RString abbrev; options] self
    = if malloc_fails env 0 sizeof_match_t (Z.of_nat (length paths))
      then ([Ev_paths], Raise rb_eNoMemError)
      else if malloc_fails env 1 sizeof_pthread_t 0
      then ([Ev_paths; Ev_malloc (Z.of_nat (length paths))], Raise rb_eNoMemError)
      else if malloc_fails env 2 sizeof_thread_args_t 0
      then ([Ev_paths; Ev_malloc (Z.of_nat (length paths)); Ev_malloc 0],
            Raise rb_eNoMemError)
      else ([Ev_paths; Ev_malloc (Z.of_nat (length paths)); Ev_malloc 0;
             Ev_malloc 0; Ev_free], Undefined).
Proof.
  intros Hscanner Hopts Ht Hsort Hn.
  destruct (malloc_fails env 0 _ _) eqn:M0;
    [|destruct (malloc_fails env 1 _ _) eqn:M1;
      [|destruct (malloc_fails env 2 _ _) eqn:M2]];
    apply ends_intro; eexists _, _;
    (split;
     [enter_call Hopts Hscanner;
      (eapply bind_ends; [reflexivity|]); cbv beta|]).
  - apply bind_raises, malloc_raises, M0.
  - split; reflexivity.
  - eapply bind_ends; [apply runs_malloc, M0|]. cbv beta.
    rewrite Ht. cbn [NIL_P].
    eapply bind_ends; [apply runs_lift; reflexivity|]. cbv beta.
    unfold THREAD_THRESHOLD.
    destruct (Z.ltb_spec (Z.of_nat (length paths)) 1000); [lia|].
    apply bind_raises, malloc_raises, M1.
  - split; reflexivity.
  - eapply bind_ends; [apply runs_malloc, M0|]. cbv beta.
    rewrite Ht. cbn [NIL_P].
    eapply bind_ends; [apply runs_lift; reflexivity|]. cbv beta.
    unfold THREAD_THRESHOLD.
    destruct (Z.ltb_spec (Z.of_nat (length paths)) 1000); [lia|].
    eapply bind_ends; [apply runs_malloc, M1|]. cbv beta.
    apply bind_raises, malloc_raises, M2.
  - split; reflexivity.
  - eapply bind_ends; [apply runs_malloc, M0|]. cbv beta.
    rewrite Ht. cbn [NIL_P].
    eapply bind_ends; [apply runs_lift; reflexivity|]. cbv beta.
    unfold THREAD_THRESHOLD.
    destruct (Z.ltb_spec (Z.of_nat (length paths)) 1000); [lia|].
    eapply bind_ends; [apply runs_malloc, M1|]. cbv beta.
    eapply bind_ends; [apply runs_malloc, M2|]. cbv beta.
    eapply bind_ends; [apply run_threads_no_workers|]. cbv beta.
    eapply bind_ends; [apply runs_emit|]. cbv beta.
    fold (sort_enabled options). rewrite Hsort.
    unfold qsort_buffer.
    rewrite read_all_unwritten by lia.
    destruct (_ || _); reflexivity.
  - split; reflexivity.
Qed.

(** X18. An abbreviation that is neither nil nor a String is refused by
    [StringValue]: the call raises TypeError before the scanner is asked
    for the paths, with nothing allocated. *)
Theorem abbreviation_must_be_a_string env sched abbrev options self :
  options_ok options = true ->
  NIL_P abbrev = false ->
  (forall s, abbrev <> RString s) ->
  CommandTMatcher_sorted_matches_for env sched [abbrev; options] self
    = ([], Raise rb_eTypeError).
Proof.
  intros Hopts Hnil Hstr. apply ends_intro. eexists _, _. split.
  - unfold CommandTMatcher_sorted_matches_for.
    eapply bind_ends; [apply runs_lift; reflexivity|]. cbv beta iota.
    rewrite Hnil.
    do 6 (eapply bind_ends;
          [apply runs_lift, option_from_hash_opt, Hopts|]; cbv beta).
    destruct abbrev; try reflexivity. now destruct (Hstr s).
  - split; reflexivity.
Qed.

(** X9. A [limit] option that [NUM2LONG] refuses (not an integer, or one
    that does not fit a [long]) makes the call raise whatever else
    happens: no such call returns a result. When nothing fails before,
    it raises only after every candidate was scored and the buffer
    sorted; the workers' array was released by then, the score buffer is
    not. *)
Theorem bad_limit_option_raises_after_the_work
    env sched abbrev options self paths e :
  rb_iv_get self "@scanner" = Scanner paths ->
  workers_ok options paths = true ->
  NIL_P (opt options "limit") = false ->
  NUM2LONG (opt options "limit") = Raise e ->
  let T := effective_threads options paths in
  (no_fault env options paths ->
   exists sc,
     CommandTMatcher_sorted_matches_for env sched [RString abbrev; options] self =
       ([Ev_paths; Ev_malloc (Z.of_nat (length paths)); Ev_malloc T; Ev_malloc T] ++
        (Ev_pthread_create <$> seqZ 0 (T - 1)) ++ sc ++
        (Ev_pthread_join <$> seqZ 0 (T - 1)) ++ [Ev_free] ++
        (if sort_enabled options then [Ev_qsort] else []),
        Raise e) /\
     sc ≡ₚ (fun j => Ev_calculate_match (Z.of_nat j mod T) (Z.of_nat j))
             <$> seq 0 (length paths)) /\
  (forall out,
     snd (CommandTMatcher_sorted_matches_for env sched [RString abbrev; options] self)
       <> Ok out).
Proof.
  intros Hscanner Hok Hnil He T.
  assert (no_fault env options paths ->
    exists sc,
     CommandTMatcher_sorted_matches_for env sched [RString abbrev; options] self =
       ([Ev_paths; Ev_malloc (Z.of_nat (length paths)); Ev_malloc T; Ev_malloc T] ++
        (Ev_pthread_create <$> seqZ 0 (T - 1)) ++ sc ++
        (Ev_pthread_join <$> seqZ 0 (T - 1)) ++ [Ev_free] ++
        (if sort_enabled options then [Ev_qsort] else []),
        Raise e) /\
     sc ≡ₚ (fun j => Ev_calculate_match (Z.of_nat j mod T) (Z.of_nat j))
             <$> seq 0 (length paths)) as Hwork.
  { intros (M0 & M1 & M2 & Hstart).
    pose proof Hok as Hok'. unfold workers_ok in Hok'.
    apply andb_true_iff in Hok' as [Hok' HTmax].
    apply andb_true_iff in Hok' as [Hok' HTmin].
    apply andb_true_iff in Hok' as [Hopts Hthreads].
    apply Z.leb_le in HTmin, HTmax. fold T in HTmin, HTmax, M1, M2, Hstart.
    destruct (run_threads_spec paths T (opt options "case_sensitive")
                (normalized options abbrev)
                (rb_iv_get self "@always_show_dot_files")
                (rb_iv_get self "@never_show_dot_files")
                (opt options "recurse") (conj HTmin HTmax) env sched Hstart)
      as (sc & Hrun & Hsc).
    exists sc. split; [|exact Hsc].
    apply ends_intro. eexists _, _. split.
    - enter_call Hopts Hscanner.
      eapply bind_ends; [reflexivity|]. cbv beta.
      eapply bind_ends; [apply runs_malloc, M0|]. cbv beta.
      eapply bind_ends; [apply runs_num_option, Hthreads|]. cbv beta.
      change (if Z.of_nat (length paths) <? THREAD_THRESHOLD then 1
              else match opt options "threads" with Integer z => z | _ => 1 end)
        with T.
      eapply bind_ends; [apply runs_malloc, M1|]. cbv beta.
      eapply bind_ends; [apply runs_malloc, M2|]. cbv beta.
      eapply bind_ends; [exact Hrun|]. cbv beta.
      eapply bind_ends; [apply runs_emit|]. cbv beta.
      change (if is_Qtrue (opt options "ignore_spaces")
              then delete_spaces
                     (if is_Qtrue (opt options "case_sensitive")
                      then abbrev else downcase abbrev)
              else if is_Qtrue (opt options "case_sensitive")
                   then abbrev else downcase abbrev)
        with (normalized options abbrev).
      replace ((fun p => Some (calculate_match p (normalized options abbrev)
                  (is_Qtrue (opt options "case_sensitive"))
                  (rb_iv_get self "@always_show_dot_files")
                  (rb_iv_get self "@never_show_dot_files")
                  (opt options "recurse"))) <$> paths)
        with (Some <$> score_all self options abbrev paths)
        by (unfold score_all; rewrite <- list_fmap_compose; reflexivity).
      eapply (bind_ends _ _ (if sort_enabled options then [Ev_qsort] else [])
                (Some <$> ranked self options abbrev paths)).
      { unfold ranked. fold (sort_enabled options).
        fold (alphabetic (normalized options abbrev)).
        destruct (sort_enabled options); [|apply runs_ret].
        destruct (alphabetic (normalized options abbrev)); apply runs_qsort_buffer. }
      rewrite Hnil, He. reflexivity.
    - split; [|reflexivity].
      cbn [app]. rewrite ?app_nil_r, <- ?app_assoc. reflexivity. }
  split; [exact Hwork|].
  intros out Hout. destruct (no_fault_dec env options paths) as [Hnf|Hnf].
  - destruct (Hwork Hnf) as (sc & E & _). rewrite E in Hout. discriminate.
  - destruct (sorted_matches_for_fault env sched abbrev options self paths
                Hscanner Hok Hnf) as (t & E).
    rewrite E in Hout. discriminate.
Qed.

(** X19. A call in which an allocation is refused or a worker cannot be
    created or joined returns no result: it raises NoMemError at the
    first of the three allocations that is refused, and SystemCallError
    when the three are granted. *)
Theorem a_fault_fails_the_whole_call env sched abbrev options self paths :
  rb_iv_get self "@scanner" = Scanner paths ->
  workers_ok options paths = true ->
  ~ no_fault env options paths ->
  exists t,
    CommandTMatcher_sorted_matches_for env sched [RString abbrev; options] self =
      (t, Raise (if malloc_fails env 0 sizeof_match_t (Z.of_nat (length paths)) ||
                    malloc_fails env 1 sizeof_pthread_t
                      (effective_threads options paths) ||
                    malloc_fails env 2 sizeof_thread_args_t
                      (effective_threads options paths)
                 then rb_eNoMemError
                 else rb_eSystemCallError)).
Proof. apply sorted_matches_for_fault. Qed.

Lemma initialize_result scanner options self :
  NIL_P scanner = false ->
  options_ok options = true ->
  CommandTMatcher_initialize [scanner; options] self =
  (rb_iv_set
     (rb_iv_set (rb_iv_set self "@scanner" scanner)
        "@always_show_dot_files" (opt options "always_show_dot_files"))
     "@never_show_dot_files" (opt options "never_show_dot_files"),
   Ok Qnil).
Proof.
  intros Hnil Hopts. unfold CommandTMatcher_initialize.
  cbn [rb_scan_args_11 and_then]. rewrite Hnil.
  rewrite !(option_from_hash_opt _ _ Hopts). reflexivity.
Qed.

(** X10. A successful construction binds [@scanner] to the scanner and
    the two dot-file variables to the options of those names (nil when
    absent), returns nil, and leaves every other instance variable as it
    was. *)
Theorem initialize_binds_the_instance_variables scanner options self :
  NIL_P scanner = false ->
  options_ok options = true ->
  exists self',
    CommandTMatcher_initialize [scanner; options] self = (self', Ok Qnil) /\
    rb_iv_get self' "@scanner" = scanner /\
    rb_iv_get self' "@always_show_dot_files"
      = opt options "always_show_dot_files" /\
    rb_iv_get self' "@never_show_dot_files"
      = opt options "never_show_dot_files" /\
    forall name, name <> "@scanner"%string ->
      name <> "@always_show_dot_files"%string ->
      name <> "@never_show_dot_files"%string ->
      rb_iv_get self' name = rb_iv_get self name.
Proof.
  intros Hnil Hopts. rewrite (initialize_result _ _ _ Hnil Hopts).
  eexists. split; [reflexivity|].
  split; [reflexivity|]. split; [reflexivity|]. split; [reflexivity|].
  intros name H1 H2 H3. unfold rb_iv_get, rb_iv_set. cbn [rb_hash_aref].
  destruct (String.eqb_spec "@never_show_dot_files" name); [congruence|].
  destruct (String.eqb_spec "@always_show_dot_files" name); [congruence|].
  destruct (String.eqb_spec "@scanner" name); [congruence|]. reflexivity.
Qed.

Lemma string_length_append (s t : string) :
  String.length (s ++ t)%string = (String.length s + String.length t)%nat.
Proof. induction s as [|c s IH]; cbn; [reflexivity | now rewrite IH]. Qed.

(** X11. [cmp_alpha] puts a path before every path it is a proper prefix
    of, whatever the bytes: a directory sorts before what is in it. *)
Theorem cmp_alpha_prefix_first (a b : match_t) (rest : string) :
  rest <> EmptyString ->
  path b = (path a ++ rest)%string ->
  cmp_alpha a b < 0.
Proof.
  intros Hrest Hb. rewrite cmp_alpha_alpha_rec, Hb.
  generalize (path a) as s. clear Hb a b qsort scorer.
  induction s as [|c s IH]; cbn [String.append alpha_rec].
  - destruct rest; [congruence | lia].
  - rewrite Z.eqb_refl. destruct (byte_of c =? 0); [|exact IH].
    unfold length_order, RSTRING_LEN.
    assert (String.length rest <> 0)%nat by (destruct rest; cbn; congruence).
    rewrite string_length_append.
    repeat match goal with
           | |- context [?x >? ?y] => destruct (Z.gtb_spec x y)
           | |- context [?x <? ?y] => destruct (Z.ltb_spec x y)
           end; lia.
Qed.

(** X12. Two abbreviations that are the same once normalized (case-folded
    unless [case_sensitive], spaces deleted if [ignore_spaces]) get the
    same result: two calls that return, return the same sequence; and
    both return when nothing fails in either. *)
Theorem same_normalized_abbreviation_same_result
    env1 env2 sched1 sched2 abbrev1 abbrev2 options self paths :
  rb_iv_get self "@scanner" = Scanner paths ->
  call_ok options paths = true ->
  normalized options abbrev1 = normalized options abbrev2 ->
  (no_fault env1 options paths -> no_fault env2 options paths ->
   exists out,
     snd (CommandTMatcher_sorted_matches_for env1 sched1
            [RString abbrev1; options] self) = Ok out /\
     snd (CommandTMatcher_sorted_matches_for env2 sched2
            [RString abbrev2; options] self) = Ok out) /\
  (forall out1 out2,
     snd (CommandTMatcher_sorted_matches_for env1 sched1
            [RString abbrev1; options] self) = Ok out1 ->
     snd (CommandTMatcher_sorted_matches_for env2 sched2
            [RString abbrev2; options] self) = Ok out2 ->
     out1 = out2).
Proof.
  intros Hs Hok Hnorm.
  assert (ranked self options abbrev1 paths = ranked self options abbrev2 paths)
    as Heq by (unfold ranked, score_all, score_of; now rewrite Hnorm).
  split.
  - intros Hnf1 Hnf2.
    rewrite (sorted_matches_for_returns env1 sched1 _ _ _ _ Hs Hok Hnf1).
    rewrite (sorted_matches_for_returns env2 sched2 _ _ _ _ Hs Hok Hnf2).
    eexists. split; [reflexivity|]. now rewrite Heq.
  - intros out1 out2 H1 H2.
    apply (sorted_matches_for_returned _ _ _ _ _ _ _ Hs Hok) in H1 as [-> _].
    apply (sorted_matches_for_returned _ _ _ _ _ _ _ Hs Hok) in H2 as [-> _].
    now rewrite Heq.
Qed.

(** X13. Raising the limit only appends to the result: with limits
    [1 <= L1 <= L2], when both calls return, the result for [L1] is the
    first [L1] entries of the result for [L2]; and both return when
    nothing fails in either. *)
Theorem larger_limit_extends_the_result
    env1 env2 sched1 sched2 abbrev options1 options2 self paths L1 L2 :
  rb_iv_get self "@scanner" = Scanner paths ->
  call_ok options1 paths = true ->
  call_ok options2 paths = true ->
  (forall key, key <> "limit"%string -> opt options1 key = opt options2 key) ->
  opt options1 "limit" = Integer L1 ->
  opt options2 "limit" = Integer L2 ->
  1 <= L1 <= L2 ->
  (no_fault env1 options1 paths -> no_fault env2 options2 paths ->
   exists out1 out2,
     snd (CommandTMatcher_sorted_matches_for env1 sched1
            [RString abbrev; options1] self) = Ok out1 /\
     snd (CommandTMatcher_sorted_matches_for env2 sched2
            [RString abbrev; options2] self) = Ok out2) /\
  (forall out1 out2,
     snd (CommandTMatcher_sorted_matches_for env1 sched1
            [RString abbrev; options1] self) = Ok out1 ->
     snd (CommandTMatcher_sorted_matches_for env2 sched2
            [RString abbrev; options2] self) = Ok out2 ->
     out1 = take (Z.to_nat L1) out2).
Proof.
  intros Hs Hok1 Hok2 Hsame H1 H2 HL. split.
  - intros Hnf1 Hnf2. eexists _, _. split.
    + exact (sorted_matches_for_returns _ _ _ _ _ _ Hs Hok1 Hnf1).
    + exact (sorted_matches_for_returns _ _ _ _ _ _ Hs Hok2 Hnf2).
  - intros out1 out2 R1 R2.
    apply (sorted_matches_for_returned _ _ _ _ _ _ _ Hs Hok1) in R1 as [-> _].
    apply (sorted_matches_for_returned _ _ _ _ _ _ _ Hs Hok2) in R2 as [-> _].
    rewrite (ranked_ext self options1 options2) by auto.
    unfold start_limit, limit_option. rewrite H1, H2.
    destruct (Z.eqb_spec L1 0); [lia|]. destruct (Z.eqb_spec L2 0); [lia|].
    rewrite take_take. f_equal. lia.
Qed.

(** What [qsort] guarantees: the array is rearranged, and sorted by the
    comparison function when that function is consistent. *)
Hypothesis qsort_Permutation : forall cmp l, qsort cmp l ≡ₚ l.
Hypothesis qsort_sorted :
  forall cmp l, consistent cmp -> StronglySorted (before cmp) (qsort cmp l).

Lemma ranked_Permutation self options abbrev paths :
  ranked self options abbrev paths ≡ₚ score_all self options abbrev paths.
Proof using Type qsort_Permutation.
  unfold ranked. destruct (sort_enabled options); [|reflexivity].
  destruct (alphabetic _); apply qsort_Permutation.
Qed.

Lemma ranked_scores self options abbrev paths :
  Forall (fun m => score m = score_of self options abbrev (path m) /\
                   path m ∈ paths)
    (ranked self options abbrev paths).
Proof using Type qsort_Permutation. rewrite ranked_Permutation. apply score_all_scores. Qed.

Lemma unlimited_is_hits self options abbrev paths :
  take (length paths) (hits (ranked self options abbrev paths)) =
  hits (ranked self options abbrev paths).
Proof using Type qsort_Permutation.
  apply take_ge. etrans; [apply length_hits|].
  rewrite ranked_Permutation. unfold score_all. now rewrite length_fmap.
Qed.

(** C5. With a limit [L >= 1] a call that returns, returns the first [L]
    entries of what the call with no limit (limit 0 or absent) returns,
    so at most [L] of them; with no limit a call that returns, returns
    every candidate of positive score, in ranked order. Both calls
    return when nothing fails in either. *)
Theorem limit_keeps_the_first_entries
    env env0 sched sched0 abbrev options options0 self paths L :
  rb_iv_get self "@scanner" = Scanner paths ->
  call_ok options paths = true ->
  call_ok options0 paths = true ->
  (forall key, key <> "limit"%string -> opt options key = opt options0 key) ->
  opt options "limit" = Integer L -> 1 <= L ->
  opt options0 "limit" = Qnil \/ opt options0 "limit" = Integer 0 ->
  (no_fault env options paths -> no_fault env0 options0 paths ->
   exists out unlimited,
     snd (CommandTMatcher_sorted_matches_for env sched
            [RString abbrev; options] self) = Ok out /\
     snd (CommandTMatcher_sorted_matches_for env0 sched0
            [RString abbrev; options0] self) = Ok unlimited) /\
  (forall out unlimited,
     snd (CommandTMatcher_sorted_matches_for env sched
            [RString abbrev; options] self) = Ok out ->
     snd (CommandTMatcher_sorted_matches_for env0 sched0
            [RString abbrev; options0] self) = Ok unlimited ->
     out = take (Z.to_nat L) unlimited /\
     Z.of_nat (length out) <= L /\
     unlimited = hits (ranked self options0 abbrev paths)).
Proof using Type qsort_Permutation.
  intros Hs Hok Hok0 Hsame HL HL1 H0. split.
  - intros Hnf Hnf0. eexists _, _. split.
    + exact (sorted_matches_for_returns _ _ _ _ _ _ Hs Hok Hnf).
    + exact (sorted_matches_for_returns _ _ _ _ _ _ Hs Hok0 Hnf0).
  - intros out unlimited R R0.
    apply (sorted_matches_for_returned _ _ _ _ _ _ _ Hs Hok) in R as [-> _].
    apply (sorted_matches_for_returned _ _ _ _ _ _ _ Hs Hok0) in R0 as [-> _].
    rewrite (ranked_ext self options options0) by auto.
    assert (start_limit options0 paths = Z.of_nat (length paths)) as ->.
    { unfold start_limit, limit_option. now destruct H0 as [-> | ->]. }
    assert (start_limit options paths = L) as ->.
    { unfold start_limit, limit_option. rewrite HL.
      destruct (Z.eqb_spec L 0); [lia | reflexivity]. }
    rewrite Nat2Z.id, unlimited_is_hits.
    split; [reflexivity|]. split; [|reflexivity].
    rewrite length_take. lia.
Qed.

(** C6. Every entry of a result that is returned is a candidate whose
    computed score is positive: no candidate of score 0 or less is
    returned. A result is returned when nothing fails. *)
Theorem no_candidate_without_positive_score env sched abbrev options self paths :
  rb_iv_get self "@scanner" = Scanner paths ->
  call_ok options paths = true ->
  (no_fault env options paths ->
   exists out,
     snd (CommandTMatcher_sorted_matches_for env sched
            [RString abbrev; options] self) = Ok out) /\
  (forall out,
     snd (CommandTMatcher_sorted_matches_for env sched
            [RString abbrev; options] self) = Ok out ->
     forall p, p ∈ out ->
       p ∈ paths /\ (0 < score_of self options abbrev p)%Q).
Proof using Type qsort_Permutation.
  intros Hs Hok. split.
  - intros Hnf. eexists. exact (sorted_matches_for_returns _ _ _ _ _ _ Hs Hok Hnf).
  - intros out [-> _]%(sorted_matches_for_returned _ _ _ _ _ _ _ Hs Hok).
    intros p Hp%subseteq_take. unfold hits in Hp.
    apply list_elem_of_fmap in Hp as (m & -> & [Hpos Hm]%list_elem_of_filter).
    pose proof (ranked_scores self options abbrev paths) as Hall.
    rewrite Forall_forall in Hall. destruct (Hall m Hm) as [Hsc Hin].
    split; [exact Hin | now rewrite <- Hsc].
Qed.

(** C2, as the code has it. For the pattern "" or ".", with sorting on,
    a call that returns, returns the candidates of positive score, all of
    them when the limit is 0 or absent and the first [limit] of them
    otherwise, in the order of [cmp_alpha]: the scores play no part in
    the order, and for paths without a NUL byte the order is byte-wise, a
    prefix first. The call returns when nothing fails. *)
Theorem alphabetic_fallback_orders_the_hits env sched abbrev options self paths :
  rb_iv_get self "@scanner" = Scanner paths ->
  call_ok options paths = true ->
  sort_enabled options = true ->
  normalized options abbrev = ""%string \/ normalized options abbrev = "."%string ->
  (no_fault env options paths ->
   exists out,
     snd (CommandTMatcher_sorted_matches_for env sched
            [RString abbrev; options] self) = Ok out) /\
  (forall out,
     snd (CommandTMatcher_sorted_matches_for env sched
            [RString abbrev; options] self) = Ok out ->
     exists full,
       out = take (Z.to_nat (start_limit options paths)) full /\
       (limit_option options = 0 -> out = full) /\
       full ≡ₚ filter (fun p => (0 < score_of self options abbrev p)%Q) paths /\
       StronglySorted alpha_ordered full).
Proof using Type qsort_Permutation qsort_sorted.
  intros Hs Hok Hsort Hpat. split.
  - intros Hnf. eexists. exact (sorted_matches_for_returns _ _ _ _ _ _ Hs Hok Hnf).
  - intros out [-> _]%(sorted_matches_for_returned _ _ _ _ _ _ _ Hs Hok).
    exists (hits (ranked self options abbrev paths)).
    split; [reflexivity|]. split; [|split].
    + intros H0. unfold start_limit. rewrite H0. cbn [Z.eqb].
      rewrite Nat2Z.id. apply unlimited_is_hits.
    + rewrite <- hits_score_all. unfold hits. now rewrite ranked_Permutation.
    + unfold hits.
      eapply StronglySorted_fmap; [intros a b; apply cmp_alpha_alpha_ordered|].
      eapply StronglySorted_sublist; [apply sublist_filter|].
      unfold ranked. rewrite Hsort.
      assert (alphabetic (normalized options abbrev) = true) as ->
        by (destruct Hpat as [-> | ->]; reflexivity).
      apply qsort_sorted, cmp_alpha_consistent.
Qed.

(** C3, as the code has it. For any other pattern, with sorting on, the
    scores along a result that is returned never increase, and two
    entries of equal score stand in the order of [cmp_alpha], which for
    paths without a NUL byte is byte-wise, a prefix first. A result is
    returned when nothing fails. *)
Theorem score_order_with_alphabetic_ties env sched abbrev options self paths :
  rb_iv_get self "@scanner" = Scanner paths ->
  call_ok options paths = true ->
  sort_enabled options = true ->
  normalized options abbrev <> ""%string ->
  normalized options abbrev <> "."%string ->
  (no_fault env options paths ->
   exists out,
     snd (CommandTMatcher_sorted_matches_for env sched
            [RString abbrev; options] self) = Ok out) /\
  (forall out,
     snd (CommandTMatcher_sorted_matches_for env sched
            [RString abbrev; options] self) = Ok out ->
     StronglySorted (score_ordered self options abbrev) out).
Proof using Type qsort_Permutation qsort_sorted.
  intros Hs Hok Hsort Hne Hnd. split.
  - intros Hnf. eexists. exact (sorted_matches_for_returns _ _ _ _ _ _ Hs Hok Hnf).
  - intros out [-> _]%(sorted_matches_for_returned _ _ _ _ _ _ _ Hs Hok).
    eapply StronglySorted_sublist; [apply sublist_take|].
    unfold hits.
    eapply (StronglySorted_fmap _
              (fun a b => before cmp_score a b /\
                 (score a = score_of self options abbrev (path a) /\ path a ∈ paths) /\
                 (score b = score_of self options abbrev (path b) /\ path b ∈ paths))).
    + intros a b (Hab & [Ha _] & [Hb _]). apply cmp_score_le in Hab.
      unfold score_ordered. rewrite <- Ha, <- Hb. split.
      * destruct Hab as [?|[? _]]; lra.
      * intros Heq. destruct Hab as [?|[_ ?]]; [lra|].
        now apply cmp_alpha_alpha_ordered.
    + eapply StronglySorted_sublist; [apply sublist_filter|].
      apply StronglySorted_and_Forall; [|apply ranked_scores].
      unfold ranked. rewrite Hsort.
      assert (alphabetic (normalized options abbrev) = false) as ->.
      { unfold alphabetic, is_single_dot, RSTRING_LEN.
        destruct (normalized options abbrev) as [|c [|d r]]; [congruence| |].
        - cbn. destruct (Ascii.eqb_spec c "."); [congruence | reflexivity].
        - cbn [String.length]. apply orb_false_iff. split.
          + apply Z.eqb_neq. lia.
          + apply andb_false_iff. left. apply Z.eqb_neq. lia. }
      apply qsort_sorted, cmp_score_consistent.
Qed.

(** C9, as the code has it. [cmp_alpha] returns 0 exactly when the two
    paths have the same length and the same bytes up to their first NUL
    byte; for paths without a NUL byte, exactly when they are the same
    bytes. Swapping the arguments always flips the sign. *)
Theorem cmp_alpha_zero_and_antisymmetry (a b : match_t) :
  (cmp_alpha a b = 0 <->
   String.length (path a) = String.length (path b) /\
   c_str (path a) = c_str (path b)) /\
  (nul_free (path a) = true -> nul_free (path b) = true ->
   (cmp_alpha a b = 0 <-> path a = path b)) /\
  Z.sgn (cmp_alpha b a) = - Z.sgn (cmp_alpha a b).
Proof.
  split; [|split].
  - rewrite cmp_alpha_alpha_rec. apply alpha_rec_zero.
  - intros Ha Hb. rewrite cmp_alpha_alpha_rec, alpha_rec_zero.
    rewrite (c_str_nul_free _ Ha), (c_str_nul_free _ Hb).
    split; [tauto | intros ->; auto].
  - apply cmp_alpha_sgn.
Qed.

(** ** What the sort leaves open, and what it does not *)

Lemma hits_ranked_Permutation self options abbrev paths :
  hits (ranked self options abbrev paths) ≡ₚ
  filter (fun p => (0 < score_of self options abbrev p)%Q) paths.
Proof using Type qsort_Permutation.
  rewrite <- hits_score_all. unfold hits. now rewrite ranked_Permutation.
Qed.

Lemma hits_ranked_sorted self options abbrev paths :
  sort_enabled options = true ->
  StronglySorted (result_order self options abbrev)
    (hits (ranked self options abbrev paths)).
Proof using Type qsort_Permutation qsort_sorted.
  intros Hsort. unfold result_order, hits.
  pose proof (ranked_scores self options abbrev paths) as Hall.
  unfold ranked in *. rewrite Hsort in *.
  destruct (alphabetic (normalized options abbrev)).
  - eapply StronglySorted_fmap; [intros a b; apply cmp_alpha_alpha_ordered|].
    eapply StronglySorted_sublist; [apply sublist_filter|].
    apply qsort_sorted, cmp_alpha_consistent.
  - eapply (StronglySorted_fmap _
              (fun a b => before cmp_score a b /\
                 (score a = score_of self options abbrev (path a) /\ path a ∈ paths) /\
                 (score b = score_of self options abbrev (path b) /\ path b ∈ paths))).
    + intros a b (Hab & [Ha _] & [Hb _]). apply cmp_score_le in Hab.
      unfold score_ordered. rewrite <- Ha, <- Hb. split.
      * destruct Hab as [?|[? _]]; lra.
      * intros Heq. destruct Hab as [?|[_ ?]]; [lra|].
        now apply cmp_alpha_alpha_ordered.
    + eapply StronglySorted_sublist; [apply sublist_filter|].
      apply StronglySorted_and_Forall; [|exact Hall].
      apply qsort_sorted, cmp_score_consistent.
Qed.

Lemma alpha_ordered_antisym p q :
  nul_free p = true -> nul_free q = true ->
  alpha_ordered p q -> alpha_ordered q p -> p = q.
Proof.
  intros Hp Hq [Hpq _] [Hqp _].
  apply alpha_le_alpha_rec in Hpq, Hqp.
  rewrite (alpha_rec_antisym p q) in Hqp.
  assert (alpha_rec p q = 0) as [_ Hc]%alpha_rec_zero by lia.
  now rewrite (c_str_nul_free _ Hp), (c_str_nul_free _ Hq) in Hc.
Qed.

Lemma result_order_antisym self options abbrev p q :
  nul_free p = true -> nul_free q = true ->
  result_order self options abbrev p q ->
  result_order self options abbrev q p -> p = q.
Proof.
  intros Hp Hq. unfold result_order.
  destruct (alphabetic (normalized options abbrev)).
  - now apply alpha_ordered_antisym.
  - intros [H1 A1] [H2 A2].
    apply alpha_ordered_antisym; [assumption.. | apply A1 | apply A2]; lra.
Qed.

(** On candidates without a NUL byte, a list that holds the candidates
    of positive score in the order of the result is the list the call
    ranks, whatever [qsort] did. *)
Lemma hits_ranked_determined self options abbrev paths l :
  Forall (fun p => nul_free p = true) paths ->
  sort_enabled options = true ->
  l ≡ₚ filter (fun p => (0 < score_of self options abbrev p)%Q) paths ->
  StronglySorted (result_order self options abbrev) l ->
  l = hits (ranked self options abbrev paths).
Proof using Type qsort_Permutation qsort_sorted.
  intros Hnul Hsort Hperm Hsorted.
  eapply StronglySorted_unique_strong; [|exact Hsorted| |].
  - intros p q Hp Hq.
    rewrite Forall_forall in Hnul.
    apply result_order_antisym; apply Hnul.
    + rewrite Hperm in Hp. now apply list_elem_of_filter in Hp as [_ ?].
    + rewrite hits_ranked_Permutation in Hq.
      now apply list_elem_of_filter in Hq as [_ ?].
  - now apply hits_ranked_sorted.
  - now rewrite hits_ranked_Permutation.
Qed.

(** X14. A result that is returned selects from the candidates: every
    candidate occurs in it at most as often as the scanner gave it, so a
    candidate list without repetition gives a result without repetition.
    A result is returned when nothing fails. *)
Theorem result_is_a_selection_of_the_candidates
    env sched abbrev options self paths :
  rb_iv_get self "@scanner" = Scanner paths ->
  call_ok options paths = true ->
  (no_fault env options paths ->
   exists out,
     snd (CommandTMatcher_sorted_matches_for env sched
            [RString abbrev; options] self) = Ok out) /\
  (forall out,
     snd (CommandTMatcher_sorted_matches_for env sched
            [RString abbrev; options] self) = Ok out ->
     out ⊆+ paths /\
     (NoDup paths -> NoDup out)).
Proof using Type qsort_Permutation.
  intros Hs Hok. split.
  - intros Hnf. eexists. exact (sorted_matches_for_returns _ _ _ _ _ _ Hs Hok Hnf).
  - intros out [-> _]%(sorted_matches_for_returned _ _ _ _ _ _ _ Hs Hok).
    assert (take (Z.to_nat (start_limit options paths))
              (hits (ranked self options abbrev paths)) ⊆+ paths) as Hsub.
    { etrans; [apply sublist_submseteq, sublist_take|].
      rewrite hits_ranked_Permutation. apply sublist_submseteq, sublist_filter. }
    split; [exact Hsub|].
    intros Hnd. eapply sublist_NoDup; [|apply sublist_take].
    rewrite hits_ranked_Permutation. now apply NoDup_filter.
Qed.

(** X15. With no limit (0 or absent) nothing that matches is left out of
    a result that is returned: it is a rearrangement of the candidates of
    positive score, each as often as the scanner gave it. A result is
    returned when nothing fails. *)
Theorem unlimited_result_holds_every_hit env sched abbrev options self paths :
  rb_iv_get self "@scanner" = Scanner paths ->
  call_ok options paths = true ->
  limit_option options = 0 ->
  (no_fault env options paths ->
   exists out,
     snd (CommandTMatcher_sorted_matches_for env sched
            [RString abbrev; options] self) = Ok out) /\
  (forall out,
     snd (CommandTMatcher_sorted_matches_for env sched
            [RString abbrev; options] self) = Ok out ->
     out ≡ₚ filter (fun p => (0 < score_of self options abbrev p)%Q) paths).
Proof using Type qsort_Permutation.
  intros Hs Hok H0. split.
  - intros Hnf. eexists. exact (sorted_matches_for_returns _ _ _ _ _ _ Hs Hok Hnf).
  - intros out [-> _]%(sorted_matches_for_returned _ _ _ _ _ _ _ Hs Hok).
    unfold start_limit. rewrite H0. cbn [Z.eqb].
    rewrite Nat2Z.id, unlimited_is_hits. apply hits_ranked_Permutation.
Qed.

(** X16. The flags given at construction are the ones the scorer gets
    in a later ranking call: every entry of a result that is returned has
    a positive score under the pattern of the call and the dot-file
    options of the constructor. A result is returned when nothing
    fails. *)
Theorem constructed_matcher_scores_with_its_flags
    env sched abbrev options ctor_options self0 paths :
  options_ok ctor_options = true ->
  call_ok options paths = true ->
  let self := fst (CommandTMatcher_initialize [Scanner paths; ctor_options] self0) in
  (no_fault env options paths ->
   exists out,
     snd (CommandTMatcher_sorted_matches_for env sched
            [RString abbrev; options] self) = Ok out) /\
  (forall out,
     snd (CommandTMatcher_sorted_matches_for env sched
            [RString abbrev; options] self) = Ok out ->
     forall p, p ∈ out ->
       p ∈ paths /\
       (0 < scorer p (normalized options abbrev)
              (is_Qtrue (opt options "case_sensitive"))
              (opt ctor_options "always_show_dot_files")
              (opt ctor_options "never_show_dot_files")
              (opt options "recurse"))%Q).
Proof using Type qsort_Permutation.
  intros Hctor Hok self. unfold self.
  rewrite (initialize_result (Scanner paths) ctor_options self0 eq_refl Hctor).
  cbn [fst]. clear self.
  set (self := rb_iv_set _ _ _).
  assert (rb_iv_get self "@scanner" = Scanner paths) as Hs by reflexivity.
  assert (rb_iv_get self "@always_show_dot_files"
          = opt ctor_options "always_show_dot_files") as Ha by reflexivity.
  assert (rb_iv_get self "@never_show_dot_files"
          = opt ctor_options "never_show_dot_files") as Hn by reflexivity.
  split.
  - intros Hnf. eexists. exact (sorted_matches_for_returns _ _ _ _ _ _ Hs Hok Hnf).
  - intros out [-> _]%(sorted_matches_for_returned _ _ _ _ _ _ _ Hs Hok).
    intros p Hp%subseteq_take. unfold hits in Hp.
    apply list_elem_of_fmap in Hp as (m & -> & [Hpos Hm]%list_elem_of_filter).
    pose proof (ranked_scores self options abbrev paths) as Hall.
    rewrite Forall_forall in Hall. destruct (Hall m Hm) as [Hsc Hin].
    split; [exact Hin|].
    rewrite Hsc in Hpos. unfold score_of in Hpos. now rewrite Ha, Hn in Hpos.
Qed.

End Matcher.


(** * The claims at sample calls *)

Lemma opt_with_threads t1 t2 key :
  key <> "threads"%string -> opt (with_threads t1) key = opt (with_threads t2) key.
Proof.
  intros Hkey. unfold with_threads, opt. cbn [rb_hash_aref].
  destruct (String.eqb_spec "threads" key); congruence.
Qed.

Lemma opt_with_limit l key :
  key <> "limit"%string -> opt (with_limit l) key = opt Qnil key.
Proof.
  intros Hkey. unfold with_limit, opt. cbn [rb_hash_aref].
  destruct (String.eqb_spec "limit" key); congruence.
Qed.

(** Nothing fails in the quiet environment, for worker counts within
    [int] and candidate lists of a size that fits the address space. *)
Lemma no_fault_quiet options paths :
  0 <= effective_threads options paths <= INT_MAX ->
  Z.of_nat (length paths) < 2 ^ 59 ->
  no_fault quiet options paths.
Proof.
  intros HT Hn.
  assert (forall size nmemb site, 0 < size <= 72 -> 0 <= nmemb < 2 ^ 56 ->
            malloc_fails quiet site size nmemb = false) as Hm.
  { intros size nmemb site Hsize Hnmemb.
    unfold malloc_fails, PTRDIFF_MAX, SIZE_MAX. cbn [malloc_null quiet].
    rewrite orb_false_r. apply Z.ltb_ge.
    rewrite Z.mod_small by nia. nia. }
  unfold INT_MAX in HT.
  split; [|split; [|split]].
  - unfold malloc_fails, PTRDIFF_MAX, SIZE_MAX, sizeof_match_t.
    cbn [malloc_null quiet]. rewrite orb_false_r. apply Z.ltb_ge.
    rewrite Z.mod_small by lia. lia.
  - apply Hm; unfold sizeof_pthread_t; lia.
  - apply Hm; unfold sizeof_thread_args_t; lia.
  - intros k _. split; reflexivity.
Qed.

Lemma no_fault_quiet_sample options :
  no_fault quiet options sample_paths.
Proof. apply no_fault_quiet; vm_compute; split; discriminate || reflexivity. Qed.

Lemma worker_count_witness :
  exists out,
    snd (CommandTMatcher_sorted_matches_for qsort_insertion spec_scorer quiet
           [0; 1; 2; 1; 0; 0]%nat [RString "fdr"; with_threads 3] many_self)
      = Ok out /\
    snd (CommandTMatcher_sorted_matches_for qsort_insertion spec_scorer quiet
           [] [RString "fdr"; with_threads 1] many_self)
      = Ok out.
Proof.
  apply (worker_count_and_schedule_do_not_change_the_result
           qsort_insertion spec_scorer quiet quiet _ _ _ _ _ many_self many_paths).
  - reflexivity.
  - vm_compute. reflexivity.
  - vm_compute. reflexivity.
  - intros key. apply opt_with_threads.
  - apply no_fault_quiet; vm_compute; split; discriminate || reflexivity.
  - apply no_fault_quiet; vm_compute; split; discriminate || reflexivity.
Defined.

Lemma striped_workers_witness :
  exists sc,
    run_threads spec_scorer quiet [2; 0; 1; 1]%nat 3
      (fill_thread_args 3 Qnil (Z.of_nat (length sample_paths)) sample_paths
         "fb" Qnil Qnil Qnil <$> seqZ 0 3)
      (replicate (length sample_paths) None) =
      ((Ev_pthread_create <$> seqZ 0 (3 - 1)) ++ sc ++
       (Ev_pthread_join <$> seqZ 0 (3 - 1)),
       Ok ((fun p => Some (calculate_match spec_scorer p "fb" (is_Qtrue Qnil)
                             Qnil Qnil Qnil)) <$> sample_paths)) /\
    sc ≡ₚ (fun j => Ev_calculate_match (Z.of_nat j mod 3) (Z.of_nat j))
            <$> seq 0 (length sample_paths).
Proof.
  apply (striped_workers_score_every_slot_once spec_scorer quiet
           [2; 0; 1; 1]%nat 3 Qnil sample_paths "fb" Qnil Qnil Qnil).
  - unfold INT_MAX. lia.
  - intros i _. split; reflexivity.
Defined.

Lemma thread_threshold_witness :
  exists T sc rest,
    (Z.of_nat (length sample_paths) < 1000 -> T = 1) /\
    (1000 <= Z.of_nat (length sample_paths) -> T = requested_threads (with_threads 8)) /\
    fst (CommandTMatcher_sorted_matches_for qsort_insertion spec_scorer quiet
           [] [RString "fb"; with_threads 8] sample_self) =
      [Ev_paths; Ev_malloc (Z.of_nat (length sample_paths)); Ev_malloc T; Ev_malloc T] ++
      (Ev_pthread_create <$> seqZ 0 (T - 1)) ++ sc ++
      (Ev_pthread_join <$> seqZ 0 (T - 1)) ++ rest /\
    sc ≡ₚ (fun j => Ev_calculate_match (Z.of_nat j mod T) (Z.of_nat j))
            <$> seq 0 (length sample_paths).
Proof.
  destruct (thread_threshold_forces_one_worker qsort_insertion spec_scorer
              quiet [] "fb" (with_threads 8) sample_self sample_paths
              eq_refl eq_refl)
    as (T & Hlow & Hhigh & Hret & Hall).
  destruct (Hret (no_fault_quiet_sample _)) as (out & Hout).
  destruct (Hall out Hout) as (sc & rest & Htr & Hsc).
  exists T, sc, rest. repeat split; assumption.
Defined.

Lemma negative_limit_witness :
  snd (CommandTMatcher_sorted_matches_for qsort_insertion spec_scorer quiet
         [] [RString "fb"; with_limit (-1)] sample_self) = Ok [].
Proof.
  apply (negative_limit_returns_nothing qsort_insertion spec_scorer
           quiet _ _ _ _ sample_paths (-1)).
  - reflexivity.
  - vm_compute. reflexivity.
  - reflexivity.
  - lia.
  - apply no_fault_quiet_sample.
Defined.

Lemma limit_witness :
  exists out unlimited,
    snd (CommandTMatcher_sorted_matches_for qsort_insertion spec_scorer quiet
           [] [RString "fb"; with_limit 1] sample_self) = Ok out /\
    snd (CommandTMatcher_sorted_matches_for qsort_insertion spec_scorer quiet
           [] [RString "fb"; Qnil] sample_self) = Ok unlimited /\
    out = take (Z.to_nat 1) unlimited /\
    Z.of_nat (length out) <= 1 /\
    unlimited = hits (ranked qsort_insertion spec_scorer sample_self Qnil "fb" sample_paths).
Proof.
  assert (forall key, key <> "limit"%string ->
            opt (with_limit 1) key = opt Qnil key) as Hsame
    by (intros key; apply opt_with_limit).
  destruct (limit_keeps_the_first_entries qsort_insertion spec_scorer
              qsort_insertion_Permutation quiet quiet [] [] "fb"
              (with_limit 1) Qnil sample_self sample_paths 1
              eq_refl eq_refl eq_refl Hsame eq_refl ltac:(lia)
              (or_introl eq_refl))
    as (Hret & Hall).
  destruct (Hret (no_fault_quiet_sample _) (no_fault_quiet_sample _))
    as (out & unlimited & Hout & Hun).
  exists out, unlimited. split; [exact Hout|]. split; [exact Hun|].
  exact (Hall out unlimited Hout Hun).
Defined.

Lemma positive_score_witness :
  exists out,
    snd (CommandTMatcher_sorted_matches_for qsort_insertion spec_scorer quiet
           [] [RString "fb"; Qnil] sample_self) = Ok out /\
    forall p, p ∈ out ->
      p ∈ sample_paths /\ (0 < score_of spec_scorer sample_self Qnil "fb" p)%Q.
Proof.
  destruct (no_candidate_without_positive_score qsort_insertion spec_scorer
              qsort_insertion_Permutation quiet [] "fb" Qnil sample_self
              sample_paths eq_refl eq_refl)
    as (Hret & Hall).
  destruct (Hret (no_fault_quiet_sample _)) as (out & Hout).
  exists out. split; [exact Hout | exact (Hall out Hout)].
Defined.

Lemma alphabetic_fallback_witness :
  exists out full,
    snd (CommandTMatcher_sorted_matches_for qsort_insertion spec_scorer quiet
           [] [RString ""; Qnil] sample_self) = Ok out /\
    out = take (Z.to_nat (start_limit Qnil sample_paths)) full /\
    (limit_option Qnil = 0 -> out = full) /\
    full ≡ₚ filter (fun p => (0 < score_of spec_scorer sample_self Qnil "" p)%Q)
              sample_paths /\
    StronglySorted alpha_ordered full.
Proof.
  destruct (alphabetic_fallback_orders_the_hits qsort_insertion spec_scorer
              qsort_insertion_Permutation qsort_insertion_sorted
              quiet [] "" Qnil sample_self sample_paths
              eq_refl eq_refl eq_refl (or_introl eq_refl))
    as (Hret & Hall).
  destruct (Hret (no_fault_quiet_sample _)) as (out & Hout).
  destruct (Hall out Hout) as (full & Hfull).
  exists out, full. split; [exact Hout | exact Hfull].
Defined.

Lemma score_order_witness :
  exists out,
    snd (CommandTMatcher_sorted_matches_for qsort_insertion spec_scorer quiet
           [] [RString "fb"; Qnil] sample_self) = Ok out /\
    StronglySorted (score_ordered spec_scorer sample_self Qnil "fb") out.
Proof.
  destruct (score_order_with_alphabetic_ties qsort_insertion spec_scorer
              qsort_insertion_Permutation qsort_insertion_sorted
              quiet [] "fb" Qnil sample_self sample_paths
              eq_refl eq_refl eq_refl ltac:(discriminate) ltac:(discriminate))
    as (Hret & Hall).
  destruct (Hret (no_fault_quiet_sample _)) as (out & Hout).
  exists out. split; [exact Hout | exact (Hall out Hout)].
Defined.

(** The pattern "." keeps only the candidates it matches: "README" is
    dropped although the alphabetic sort of all candidates has it. Two
    paths that agree up to a NUL byte compare equal, so the sort may
    leave them against the byte-wise order. *)
Lemma alphabetic_fallback_counterexample :
  snd (CommandTMatcher_sorted_matches_for qsort_insertion spec_scorer quiet
         [] [RString "."; Qnil] readme_self) = Ok ["a.txt"%string] /\
  path <$> qsort_insertion cmp_alpha
             (score_all spec_scorer readme_self Qnil "."
                ["README"; "a.txt"]%string)
    = ["README"; "a.txt"]%string /\
  snd (CommandTMatcher_sorted_matches_for qsort_insertion spec_scorer quiet
         [] [RString ""; Qnil] nul_self) = Ok [a_nul_c; a_nul_b] /\
  bytewise_compare a_nul_c a_nul_b = Gt.
Proof. repeat split; vm_compute; reflexivity. Qed.

(** Two paths of equal score that agree up to a NUL byte are returned
    against the byte-wise order. *)
Lemma score_order_counterexample :
  snd (CommandTMatcher_sorted_matches_for qsort_insertion spec_scorer quiet
         [] [RString "a"; Qnil] nul_self) = Ok [a_nul_c; a_nul_b] /\
  (score_of spec_scorer nul_self Qnil "a" a_nul_c ==
   score_of spec_scorer nul_self Qnil "a" a_nul_b)%Q /\
  bytewise_compare a_nul_c a_nul_b = Gt.
Proof. repeat split; vm_compute; reflexivity. Qed.

(** [cmp_alpha] returns 0 for two paths of the same length whose bytes
    differ after a NUL byte. *)
Lemma cmp_alpha_counterexample :
  cmp_alpha {| path := a_nul_b; score := 1 |} {| path := a_nul_c; score := 1 |} = 0 /\
  String.length a_nul_b = String.length a_nul_c /\
  a_nul_b <> a_nul_c.
Proof. repeat split; try reflexivity. discriminate. Qed.

Lemma bytewise_rule_witness :
  (cmp_alpha {| path := "foo"; score := 1 |} {| path := "foo/bar.txt"; score := 0 |} ?= 0)
  = bytewise_compare "foo" "foo/bar.txt".
Proof.
  apply (cmp_alpha_refines_the_bytewise_rule
           {| path := "foo"; score := 1 |} {| path := "foo/bar.txt"; score := 0 |});
    reflexivity.
Defined.

Lemma unsorted_result_witness :
  snd (CommandTMatcher_sorted_matches_for qsort_insertion spec_scorer quiet
         [] [RString "f"; RHash [("sort"%string, Qfalse)]] sample_self) =
  Ok (take (Z.to_nat (start_limit (RHash [("sort"%string, Qfalse)]) sample_paths))
        (filter (fun p => (0 < score_of spec_scorer sample_self
                                 (RHash [("sort"%string, Qfalse)]) "f" p)%Q)
           sample_paths)).
Proof.
  destruct (unsorted_result_keeps_enumeration_order qsort_insertion spec_scorer
              quiet [] "f" (RHash [("sort"%string, Qfalse)]) sample_self
              sample_paths eq_refl eq_refl eq_refl)
    as (Hret & Hall).
  destruct (Hret (no_fault_quiet_sample _)) as (out & Hout).
  rewrite Hout. f_equal. exact (Hall out Hout).
Defined.

(** ** Sample runs *)

Example scenario_subsequence :
  snd (CommandTMatcher_sorted_matches_for qsort_insertion spec_scorer quiet
         [] [RString "fb"] sample_self)
  = Ok ["foo/bar.txt"; "foo/baz.txt"]%string.
Proof. vm_compute. reflexivity. Qed.

Example scenario_alphabetic :
  snd (CommandTMatcher_sorted_matches_for qsort_insertion spec_scorer quiet
         [] [RString ""] sample_self)
  = Ok ["foo"; "foo/bar.txt"; "foo/baz.txt"; "qux.txt"]%string.
Proof. vm_compute. reflexivity. Qed.

Example scenario_limit :
  snd (CommandTMatcher_sorted_matches_for qsort_insertion spec_scorer quiet
         [] [RString "fb"; with_limit 1] sample_self)
  = Ok ["foo/bar.txt"%string].
Proof. vm_compute. reflexivity. Qed.

Example scenario_unsorted :
  snd (CommandTMatcher_sorted_matches_for qsort_insertion spec_scorer quiet
         [] [RString "f"; RHash [("sort"%string, Qfalse)]] sample_self)
  = Ok ["foo/bar.txt"; "foo/baz.txt"; "foo"]%string.
Proof. vm_compute. reflexivity. Qed.

Example scenario_three_workers :
  fst (run_threads spec_scorer quiet [2; 0; 1; 1]%nat 3
         (fill_thread_args 3 Qnil 4 sample_paths "fb" Qnil Qnil Qnil <$> seqZ 0 3)
         (replicate 4 None))
  = [Ev_pthread_create 0; Ev_pthread_create 1;
     Ev_calculate_match 2 2; Ev_calculate_match 0 0; Ev_calculate_match 1 1;
     Ev_calculate_match 0 3;
     Ev_pthread_join 0; Ev_pthread_join 1].
Proof. vm_compute. reflexivity. Qed.

Example scenario_no_worker :
  snd (CommandTMatcher_sorted_matches_for qsort_insertion spec_scorer quiet
         [] [RString "fdr"; with_threads 0] many_self)
  = Undefined.
Proof. vm_compute. reflexivity. Qed.

(** 2000 workers asked for on 1004 candidates where the thread library
    starts 494: the call raises after the 494 creations, with nothing
    scored by the calling thread and no result. *)
Example scenario_too_many_workers :
  CommandTMatcher_sorted_matches_for qsort_insertion spec_scorer crowded
    [] [RString "fdr"; with_threads 2000] many_self
  = ([Ev_paths; Ev_malloc 1004; Ev_malloc 2000; Ev_malloc 2000] ++
     (Ev_pthread_create <$> seqZ 0 494),
     Raise rb_eSystemCallError).
Proof. vm_compute. reflexivity. Qed.

(** The same call with one worker returns in that environment. *)
Example scenario_one_worker_when_crowded :
  exists out,
    snd (CommandTMatcher_sorted_matches_for qsort_insertion spec_scorer crowded
           [] [RString "fdr"; with_threads 1] many_self) = Ok out.
Proof. eexists. vm_compute. reflexivity. Qed.

(** The array of worker arguments is refused: NoMemError, with the score
    buffer and the array of thread handles allocated and not released. *)
Example scenario_out_of_memory :
  CommandTMatcher_sorted_matches_for qsort_insertion spec_scorer exhausted
    [] [RString "fb"] sample_self
  = ([Ev_paths; Ev_malloc 4; Ev_malloc 1], Raise rb_eNoMemError).
Proof. vm_compute. reflexivity. Qed.

(** A worker count of [- 2 ^ 61] wraps both array sizes to 0 bytes: the
    allocations are granted, no worker runs, and [qsort] is handed a
    buffer nobody wrote. *)
Example scenario_wrapped_worker_count :
  snd (CommandTMatcher_sorted_matches_for qsort_insertion spec_scorer quiet
         [] [RString "fdr"; with_threads (- 2 ^ 61)] many_self)
  = Undefined.
Proof. vm_compute. reflexivity. Qed.

Example scenario_initialize :
  CommandTMatcher_initialize
    [Scanner sample_paths; RHash [("never_show_dot_files"%string, Qtrue)]] []
  = ([("@never_show_dot_files"%string, Qtrue);
      ("@always_show_dot_files"%string, Qnil);
      ("@scanner"%string, Scanner sample_paths)], Ok Qnil).
Proof. reflexivity. Qed.

(** * More of the code at sample calls *)

Lemma qsort_reversing_Permutation cmp l : qsort_reversing cmp l ≡ₚ l.
Proof.
  unfold qsort_reversing. rewrite qsort_insertion_Permutation.
  apply reverse_Permutation.
Qed.

Lemma qsort_reversing_sorted cmp l :
  consistent cmp -> StronglySorted (before cmp) (qsort_reversing cmp l).
Proof. intros Hc. now apply qsort_insertion_sorted. Qed.

(** X17. On candidates without a NUL byte the result does not depend on
    how [qsort] sorts: with any two sorts that rearrange the array and
    sort it under a consistent comparison, two calls that return, return
    the same sequence; and both return when nothing fails in either. *)
Theorem result_does_not_depend_on_the_sort
    (qsort1 qsort2 : (match_t -> match_t -> Z) -> list match_t -> list match_t)
    scorer env1 env2 sched1 sched2 abbrev options self paths :
  (forall cmp l, qsort1 cmp l ≡ₚ l) ->
  (forall cmp l, consistent cmp -> StronglySorted (before cmp) (qsort1 cmp l)) ->
  (forall cmp l, qsort2 cmp l ≡ₚ l) ->
  (forall cmp l, consistent cmp -> StronglySorted (before cmp) (qsort2 cmp l)) ->
  rb_iv_get self "@scanner" = Scanner paths ->
  call_ok options paths = true ->
  Forall (fun p => nul_free p = true) paths ->
  (no_fault env1 options paths -> no_fault env2 options paths ->
   exists out,
     snd (CommandTMatcher_sorted_matches_for qsort1 scorer env1 sched1
            [RString abbrev; options] self) = Ok out /\
     snd (CommandTMatcher_sorted_matches_for qsort2 scorer env2 sched2
            [RString abbrev; options] self) = Ok out) /\
  (forall out1 out2,
     snd (CommandTMatcher_sorted_matches_for qsort1 scorer env1 sched1
            [RString abbrev; options] self) = Ok out1 ->
     snd (CommandTMatcher_sorted_matches_for qsort2 scorer env2 sched2
            [RString abbrev; options] self) = Ok out2 ->
     out1 = out2).
Proof.
  intros P1 S1 P2 S2 Hs Hok Hnul.
  assert (hits (ranked qsort1 scorer self options abbrev paths) =
          hits (ranked qsort2 scorer self options abbrev paths)) as Heq.
  { destruct (sort_enabled options) eqn:Hsort.
    - apply (hits_ranked_determined qsort2 scorer P2 S2); try assumption.
      + now apply hits_ranked_Permutation.
      + now apply hits_ranked_sorted.
    - unfold ranked. now rewrite Hsort. }
  split.
  - intros Hnf1 Hnf2.
    rewrite (sorted_matches_for_returns qsort1 scorer env1 sched1 _ _ _ _ Hs Hok Hnf1).
    rewrite (sorted_matches_for_returns qsort2 scorer env2 sched2 _ _ _ _ Hs Hok Hnf2).
    eexists. split; [reflexivity|]. now rewrite Heq.
  - intros out1 out2 H1 H2.
    apply (sorted_matches_for_returned _ _ _ _ _ _ _ _ _ Hs Hok) in H1 as [-> _].
    apply (sorted_matches_for_returned _ _ _ _ _ _ _ _ _ Hs Hok) in H2 as [-> _].
    now rewrite Heq.
Qed.

Lemma sort_independence_witness :
  exists out,
    snd (CommandTMatcher_sorted_matches_for qsort_insertion spec_scorer quiet []
           [RString "f"; Qnil] sample_self) = Ok out /\
    snd (CommandTMatcher_sorted_matches_for qsort_reversing spec_scorer quiet []
           [RString "f"; Qnil] sample_self) = Ok out.
Proof.
  apply (result_does_not_depend_on_the_sort qsort_insertion qsort_reversing
           spec_scorer quiet quiet [] [] "f" Qnil sample_self sample_paths
           qsort_insertion_Permutation qsort_insertion_sorted
           qsort_reversing_Permutation qsort_reversing_sorted).
  - reflexivity.
  - vm_compute. reflexivity.
  - repeat constructor.
  - apply no_fault_quiet_sample.
  - apply no_fault_quiet_sample.
Defined.

Lemma wrong_arity_witness :
  CommandTMatcher_initialize [] sample_self
    = (sample_self, Raise (rb_eArgError "wrong number of arguments")) /\
  CommandTMatcher_sorted_matches_for qsort_insertion spec_scorer quiet [] [] sample_self
    = ([], Raise (rb_eArgError "wrong number of arguments")).
Proof.
  apply (wrong_number_of_arguments_raises qsort_insertion spec_scorer quiet
           [] [] sample_self);
    cbn; lia.
Defined.

Lemma missing_scanner_witness :
  CommandTMatcher_sorted_matches_for qsort_insertion spec_scorer quiet []
    [RString "fb"; Qnil] []
  = ([], Raise rb_eNoMethodError).
Proof.
  apply (missing_scanner_raises qsort_insertion spec_scorer); reflexivity.
Defined.

Lemma bad_threads_witness :
  CommandTMatcher_sorted_matches_for qsort_insertion spec_scorer quiet []
    [RString "fb"; RHash [("threads"%string, RString "four")]] sample_self
  = ([Ev_paths; Ev_malloc (Z.of_nat (length sample_paths))], Raise rb_eTypeError).
Proof.
  apply (bad_threads_option_raises_after_allocation qsort_insertion spec_scorer
           quiet [] "fb" (RHash [("threads"%string, RString "four")])
           sample_self sample_paths rb_eTypeError);
    reflexivity.
Defined.

Lemma negative_worker_count_witness :
  CommandTMatcher_sorted_matches_for qsort_insertion spec_scorer quiet []
    [RString "fdr"; with_threads (-2)] many_self
  = ([Ev_paths; Ev_malloc (Z.of_nat (length many_paths))], Raise rb_eNoMemError).
Proof.
  apply (negative_worker_count_raises qsort_insertion spec_scorer
           quiet [] "fdr" (with_threads (-2)) many_self many_paths (-2)).
  - reflexivity.
  - reflexivity.
  - reflexivity.
  - lia.
  - apply Z.leb_le. vm_compute. reflexivity.
Defined.

Lemma zero_worker_count_witness :
  CommandTMatcher_sorted_matches_for qsort_insertion spec_scorer quiet []
    [RString "fdr"; with_threads 0] many_self
  = ([Ev_paths; Ev_malloc (Z.of_nat (length many_paths)); Ev_malloc 0; Ev_malloc 0;
      Ev_free], Undefined).
Proof.
  apply (zero_worker_count_scores_nothing qsort_insertion spec_scorer
           quiet [] "fdr" (with_threads 0) many_self many_paths).
  - reflexivity.
  - reflexivity.
  - reflexivity.
  - reflexivity.
  - apply Z.leb_le. vm_compute. reflexivity.
Defined.

Lemma bad_limit_witness :
  let options := RHash [("limit"%string, RString "ten")] in
  let T := effective_threads options sample_paths in
  (exists sc,
    CommandTMatcher_sorted_matches_for qsort_insertion spec_scorer quiet []
      [RString "fb"; options] sample_self =
      ([Ev_paths; Ev_malloc (Z.of_nat (length sample_paths)); Ev_malloc T; Ev_malloc T] ++
       (Ev_pthread_create <$> seqZ 0 (T - 1)) ++ sc ++
       (Ev_pthread_join <$> seqZ 0 (T - 1)) ++ [Ev_free] ++
       (if sort_enabled options then [Ev_qsort] else []),
       Raise rb_eTypeError) /\
    sc ≡ₚ (fun j => Ev_calculate_match (Z.of_nat j mod T) (Z.of_nat j))
            <$> seq 0 (length sample_paths)) /\
  snd (CommandTMatcher_sorted_matches_for qsort_insertion spec_scorer crowded []
         [RString "fb"; options] sample_self) <> Ok [].
Proof.
  intros options T. split.
  - apply (bad_limit_option_raises_after_the_work qsort_insertion spec_scorer
             quiet [] "fb" options sample_self sample_paths rb_eTypeError
             eq_refl eq_refl eq_refl eq_refl).
    apply no_fault_quiet_sample.
  - apply (bad_limit_option_raises_after_the_work qsort_insertion spec_scorer
             crowded [] "fb" options sample_self sample_paths rb_eTypeError
             eq_refl eq_refl eq_refl eq_refl).
Defined.

(** 2000 workers asked for on 1004 candidates where the thread library
    starts 494. *)
Lemma fault_witness :
  exists t,
    CommandTMatcher_sorted_matches_for qsort_insertion spec_scorer crowded []
      [RString "fdr"; with_threads 2000] many_self
    = (t, Raise rb_eSystemCallError).
Proof.
  apply (a_fault_fails_the_whole_call qsort_insertion spec_scorer crowded []
           "fdr" (with_threads 2000) many_self many_paths).
  - reflexivity.
  - vm_compute. reflexivity.
  - intros (_ & _ & _ & Hstart).
    assert (effective_threads (with_threads 2000) many_paths = 2000) as E
      by (vm_compute; reflexivity).
    rewrite E in Hstart.
    destruct (Hstart 494 ltac:(lia)) as [Hcreate _].
    discriminate Hcreate.
Defined.

Lemma initialize_witness :
  exists self',
    CommandTMatcher_initialize
      [Scanner sample_paths; RHash [("never_show_dot_files"%string, Qtrue)]]
      [("@other"%string, Integer 7)] = (self', Ok Qnil) /\
    rb_iv_get self' "@scanner" = Scanner sample_paths /\
    rb_iv_get self' "@always_show_dot_files"
      = opt (RHash [("never_show_dot_files"%string, Qtrue)]) "always_show_dot_files" /\
    rb_iv_get self' "@never_show_dot_files"
      = opt (RHash [("never_show_dot_files"%string, Qtrue)]) "never_show_dot_files" /\
    forall name, name <> "@scanner"%string ->
      name <> "@always_show_dot_files"%string ->
      name <> "@never_show_dot_files"%string ->
      rb_iv_get self' name = rb_iv_get [("@other"%string, Integer 7)] name.
Proof.
  apply (initialize_binds_the_instance_variables (Scanner sample_paths)); reflexivity.
Defined.

Lemma prefix_first_witness :
  cmp_alpha {| path := "foo"; score := 0 |} {| path := "foo/bar.txt"; score := 1 |} < 0.
Proof.
  apply (cmp_alpha_prefix_first {| path := "foo"; score := 0 |}
           {| path := "foo/bar.txt"; score := 1 |} "/bar.txt").
  - discriminate.
  - reflexivity.
Defined.

Lemma same_normalized_witness :
  exists out,
    snd (CommandTMatcher_sorted_matches_for qsort_insertion spec_scorer quiet []
           [RString "F b"; RHash [("ignore_spaces"%string, Qtrue)]] sample_self)
      = Ok out /\
    snd (CommandTMatcher_sorted_matches_for qsort_insertion spec_scorer quiet []
           [RString "fB"; RHash [("ignore_spaces"%string, Qtrue)]] sample_self)
      = Ok out.
Proof.
  apply (same_normalized_abbreviation_same_result qsort_insertion spec_scorer
           quiet quiet [] [] "F b" "fB" (RHash [("ignore_spaces"%string, Qtrue)])
           sample_self sample_paths).
  - reflexivity.
  - vm_compute. reflexivity.
  - reflexivity.
  - apply no_fault_quiet_sample.
  - apply no_fault_quiet_sample.
Defined.

Lemma larger_limit_witness :
  exists out1 out2,
    snd (CommandTMatcher_sorted_matches_for qsort_insertion spec_scorer quiet []
           [RString "f"; with_limit 1] sample_self) = Ok out1 /\
    snd (CommandTMatcher_sorted_matches_for qsort_insertion spec_scorer quiet []
           [RString "f"; with_limit 2] sample_self) = Ok out2 /\
    out1 = take (Z.to_nat 1) out2.
Proof.
  assert (forall key, key <> "limit"%string ->
            opt (with_limit 1) key = opt (with_limit 2) key) as Hsame
    by (intros key Hkey; rewrite !opt_with_limit by exact Hkey; reflexivity).
  destruct (larger_limit_extends_the_result qsort_insertion spec_scorer
              quiet quiet [] [] "f" (with_limit 1) (with_limit 2)
              sample_self sample_paths 1 2
              eq_refl eq_refl eq_refl Hsame eq_refl eq_refl ltac:(lia))
    as (Hret & Hall).
  destruct (Hret (no_fault_quiet_sample _) (no_fault_quiet_sample _))
    as (out1 & out2 & H1 & H2).
  exists out1, out2. split; [exact H1|]. split; [exact H2|].
  exact (Hall out1 out2 H1 H2).
Defined.

Lemma selection_witness :
  exists out,
    snd (CommandTMatcher_sorted_matches_for qsort_insertion spec_scorer quiet []
           [RString "f"; Qnil] sample_self) = Ok out /\
    out ⊆+ sample_paths /\
    (NoDup sample_paths -> NoDup out).
Proof.
  destruct (result_is_a_selection_of_the_candidates qsort_insertion spec_scorer
              qsort_insertion_Permutation quiet [] "f" Qnil sample_self
              sample_paths eq_refl eq_refl)
    as (Hret & Hall).
  destruct (Hret (no_fault_quiet_sample _)) as (out & Hout).
  exists out. split; [exact Hout | exact (Hall out Hout)].
Defined.

Lemma every_hit_witness :
  exists out,
    snd (CommandTMatcher_sorted_matches_for qsort_insertion spec_scorer quiet []
           [RString "f"; Qnil] sample_self) = Ok out /\
    out ≡ₚ filter (fun p => (0 < score_of spec_scorer sample_self Qnil "f" p)%Q)
             sample_paths.
Proof.
  destruct (unlimited_result_holds_every_hit qsort_insertion spec_scorer
              qsort_insertion_Permutation quiet [] "f" Qnil sample_self
              sample_paths eq_refl eq_refl eq_refl)
    as (Hret & Hall).
  destruct (Hret (no_fault_quiet_sample _)) as (out & Hout).
  exists out. split; [exact Hout | exact (Hall out Hout)].
Defined.

Lemma constructed_matcher_witness :
  exists out,
    snd (CommandTMatcher_sorted_matches_for qsort_insertion spec_scorer quiet []
           [RString "g"; Qnil]
           (fst (CommandTMatcher_initialize
                   [Scanner [".git/config"; "src/.gitignore"; "src/gem.rb"]%string;
                    RHash [("always_show_dot_files"%string, Qtrue)]] [])))
      = Ok out /\
    forall p, p ∈ out ->
      p ∈ [".git/config"; "src/.gitignore"; "src/gem.rb"]%string /\
      (0 < spec_scorer p (normalized Qnil "g") (is_Qtrue (opt Qnil "case_sensitive"))
             (opt (RHash [("always_show_dot_files"%string, Qtrue)]) "always_show_dot_files")
             (opt (RHash [("always_show_dot_files"%string, Qtrue)]) "never_show_dot_files")
             (opt Qnil "recurse"))%Q.
Proof.
  destruct (constructed_matcher_scores_with_its_flags qsort_insertion spec_scorer
              qsort_insertion_Permutation quiet [] "g" Qnil
              (RHash [("always_show_dot_files"%string, Qtrue)]) []
              [".git/config"; "src/.gitignore"; "src/gem.rb"]%string
              eq_refl eq_refl)
    as (Hret & Hall).
  assert (no_fault quiet Qnil [".git/config"; "src/.gitignore"; "src/gem.rb"]%string)
    as Hnf by (apply no_fault_quiet; vm_compute; split; discriminate || reflexivity).
  destruct (Hret Hnf) as (out & Hout).
  exists out. split; [exact Hout | exact (Hall out Hout)].
Defined.

Lemma abbreviation_type_witness :
  CommandTMatcher_sorted_matches_for qsort_insertion spec_scorer quiet []
    [Integer 42; Qnil] sample_self
  = ([], Raise rb_eTypeError).
Proof.
  apply (abbreviation_must_be_a_string qsort_insertion spec_scorer).
  - reflexivity.
  - reflexivity.
  - discriminate.
Defined.
